(** * Dabea/atc: the command interpreter and the procedure (route) model

    A shallow embedding of

    - [src/assets/scripts/commandParser/CommandParser.js] (class
      [CommandParser]) and
    - the [StandardRouteModel] class (SID / STAR procedures),

    followed by the properties of the specification that concern them.

    JavaScript values are embedded by type: a string is a [string], a slot
    that holds either [undefined] / [null] or an object is an [option], an
    array is a [list], an object used as a dictionary is a [gmap] when only
    lookup matters and an association list when the order of its keys
    matters.  A method that can throw returns a [completion]. *)

From Stdlib Require Import String Ascii List Arith Lia Lra Bool.
From Stdlib Require Reals.
From stdpp Require Import base option list strings gmap functions.

Local Open Scope string_scope.
Local Open Scope list_scope.

(** ** The JavaScript and lodash primitives the two classes use *)

Module JS.

(** How a call ends: with a value, or by throwing. *)
Inductive completion (E A : Type) : Type :=
| Normal (a : A)
| Throw (e : E).
Arguments Normal {E A} a.
Arguments Throw {E A} e.

(** Sequencing: a throw ends the sequence. *)
Definition bindc {E A B} (c : completion E A) (k : A → completion E B)
  : completion E B :=
  match c with Normal a => k a | Throw e => Throw e end.

(** [_.compact]: the falsy slots of an array are removed.  A slot is an
    [option]: [None] is [undefined], [Some] is an object or an array
    (always truthy). *)
Definition _compact {A} (l : list (option A)) : list A := omap id l.

(** [_.has(object, key)] for a plain key. *)
Definition _has {V} (object : gmap string V) (key : string) : bool :=
  bool_decide (is_Some (object !! key)).

(** [_.tail] *)
Definition _tail {A} (l : list A) : list A :=
  match l with [] => [] | _ :: t => t end.

(** [String.prototype.split] with a separator of one character: the
    result is never empty, and consecutive separators give empty
    strings. *)
Fixpoint split (sep : ascii) (s : string) : list string :=
  match s with
  | EmptyString => [EmptyString]
  | String c s' =>
      if Ascii.eqb c sep then EmptyString :: split sep s'
      else match split sep s' with
           | [] => [String c EmptyString]
           | w :: ws => String c w :: ws
           end
  end.

(** [String.prototype.toLowerCase] on the letters A-Z; every other
    character is kept. *)
Definition lower (c : ascii) : ascii :=
  let n := nat_of_ascii c in
  if (65 <=? n)%nat && (n <=? 90)%nat then ascii_of_nat (n + 32) else c.

Fixpoint toLowerCase (s : string) : string :=
  match s with
  | EmptyString => EmptyString
  | String c s' => String (lower c) (toLowerCase s')
  end.

End JS.

Import JS.

Notation "'try' x ← c 'in' k" := (bindc c (λ x, k))
  (at level 10, x name, c at level 100, k at level 200).

(** ** CommandParser.js *)

Module Parser.

(** What [CommandParser] imports from files that are not among the
    sources at hand: the two tables of [commandMap], the pattern
    [REGEX.UNICODE], the helper [unicodeToString], and the rules behind
    [CommandModel.validateArgs] and [CommandModel.parseArgs].  They are
    parameters of the embedding. *)
Class Env := {
  (** the error descriptor a validator returns *)
  error : Type;
  (** a typed argument value, as a parser produces it *)
  parsed : Type;
  SYSTEM_COMMANDS : gmap string string;
  COMMAND_MAP : gmap string string;
  (** [REGEX.UNICODE.test(token)] *)
  REGEX_UNICODE_test : string → bool;
  unicodeToString : string → string;
  (** the validator of the command of that name: [None] when the
      arguments are accepted (a falsy result) *)
  validate : option string → list (option string) → option error;
  (** the parser of the command of that name *)
  parse : option string → list (option string) → list parsed
}.

Inductive exn `{Env} : Type :=
| TypeError
| ValidationError (e : error).

Section Model.
Context `{Env}.

(** Modelled from the spec: [CommandModel] (the Command Record), whose
    file is not part of the sources.  It holds the name handed to its
    constructor ([None] when that is [undefined]), the raw arguments
    in insertion order (a slot is [None] when [undefined] was pushed)
    and the parsed arguments, absent until [parseArgs] has run. *)
Record CommandModel := {
  name : option string;
  args : list (option string);
  parsedArgs : option (list parsed)
}.

(** Modelled from the spec: [new CommandModel(name)], a record without
    arguments. *)
Definition new_CommandModel (n : option string) : CommandModel :=
  {| name := n; args := []; parsedArgs := None |}.

(** [commandModel.args.push(x)], on the raw arguments. *)
Definition args_push (x : option string) (c : CommandModel) : CommandModel :=
  {| name := name c; args := args c ++ [x]; parsedArgs := parsedArgs c |}.

(** Modelled from the spec: [command.validateArgs()], the validator keyed
    by the name of the record, on its raw arguments. *)
Definition validateArgs (c : CommandModel) : option error :=
  validate (name c) (args c).

(** Modelled from the spec: [command.parseArgs()], which populates the
    parsed arguments from the raw ones. *)
Definition parseArgs (c : CommandModel) : CommandModel :=
  {| name := name c; args := args c;
     parsedArgs := Some (parse (name c) (args c)) |}.

(** The fields of a [CommandParser].  [command] is [None] when
    [SYSTEM_COMMANDS.transmit] is [undefined]. *)
Record CommandParser := {
  command : option string;
  callsign : string;
  commandList : list CommandModel
}.

(** A method of the class: it may change the fields of [this], and it
    returns or throws.  The fields as the method left them are kept in
    both cases. *)
Definition method (A : Type) : Type :=
  CommandParser → completion exn A * CommandParser.

Definition ret {A} (a : A) : method A := λ this, (Normal a, this).

Definition throw {A} (e : exn) : method A := λ this, (Throw e, this).

Definition bind {A B} (m : method A) (k : A → method B) : method B :=
  λ this,
    match m this with
    | (Normal a, this') => k a this'
    | (Throw e, this') => (Throw e, this')
    end.

Definition set_command (c : option string) : method () :=
  λ this, (Normal (),
           {| command := c; callsign := callsign this;
              commandList := commandList this |}).

Definition set_callsign (c : string) : method () :=
  λ this, (Normal (),
           {| command := command this; callsign := c;
              commandList := commandList this |}).

Definition set_commandList (l : list CommandModel) : method () :=
  λ this, (Normal (),
           {| command := command this; callsign := callsign this;
              commandList := l |}).

Definition get_commandList : method (list CommandModel) :=
  λ this, (Normal (commandList this), this).

End Model.

Notation "'let*' x ← m 'in' k" := (bind m (λ x, k))
  (at level 10, x name, m at level 100, k at level 200).
Notation "'exec' m 'in' k" := (bind m (λ _, k))
  (at level 10, m at level 100, k at level 200).

Section Methods.
Context `{Env}.

(** [_.forEach(list, callback)] with a callback that may throw: the
    first throw ends the loop. *)
Fixpoint _forEach {A} (l : list A) (callback : A → method ()) : method () :=
  match l with
  | [] => ret ()
  | x :: l' => exec callback x in _forEach l' callback
  end.

(** [_isSystemCommand] *)
Definition _isSystemCommand (callsignOrSystemCommandName : string) : bool :=
  _has SYSTEM_COMMANDS callsignOrSystemCommandName
  && negb (bool_decide (Some callsignOrSystemCommandName
                        = SYSTEM_COMMANDS !! "transmit")).

(** The callback of [_validateCommandArguments], on one command: the
    value it returns and the command as it leaves it. *)
Definition validate_or_parse (c : CommandModel) : option error * CommandModel :=
  match validateArgs c with
  | Some hasError => (Some hasError, c)
  | None => (None, parseArgs c)
  end.

(** [_validateCommandArguments] *)
Definition _validateCommandArguments : method (list error) :=
  let* l ← get_commandList in
  let results := validate_or_parse <$> l in
  exec set_commandList (snd <$> results) in
  ret (_compact (fst <$> results)).

(** [_validateAndParseCommandArguments] *)
Definition _validateAndParseCommandArguments : method () :=
  let* validationErrors ← _validateCommandArguments in
  if (0 <? length validationErrors)%nat
  then _forEach validationErrors (λ e, throw (ValidationError e))
  else ret ().

(** [_buildSystemCommandModel].  The array it receives comes from [split]
    and holds at least the command name, so that the first branch is
    never taken. *)
Definition _buildSystemCommandModel (commandArgSegments : list string)
  : method () :=
  match commandArgSegments !! 0%nat with
  | None => throw TypeError
  | Some commandName =>
      let commandModel := new_CommandModel (Some commandName) in
      let commandModel := args_push (commandArgSegments !! 1%nat) commandModel in
      exec set_command (Some commandName) in
      exec (let* l ← get_commandList in set_commandList (l ++ [commandModel])) in
      _validateAndParseCommandArguments
  end.

(** The state of the loop of [_buildCommandList]: the command models
    created so far (a reference is an index into [heap]) and the
    variable [commandModel] the callback shares across iterations,
    [None] while it is [undefined]. *)
Record scan := {
  heap : list CommandModel;
  commandModel : option nat
}.

(** The callback of [_buildCommandList] on one token: the value it
    returns ([None] for [undefined], else a reference). *)
Definition scan_token (commandOrArg : string) (s : scan)
  : completion exn (option nat * scan) :=
  if bool_decide (commandOrArg = "") then Normal (None, s)
  else if REGEX_UNICODE_test commandOrArg then
    let commandString := unicodeToString commandOrArg in
    let r := length (heap s) in
    Normal (Some r,
            {| heap := heap s ++ [new_CommandModel (COMMAND_MAP !! commandString)];
               commandModel := Some r |})
  else if _has COMMAND_MAP commandOrArg then
    let r := length (heap s) in
    Normal (Some r,
            {| heap := heap s ++ [new_CommandModel (COMMAND_MAP !! commandOrArg)];
               commandModel := Some r |})
  else
    match commandModel s with
    | None => Throw TypeError
    | Some r =>
        Normal (None,
                {| heap := alter (args_push (Some commandOrArg)) r (heap s);
                   commandModel := Some r |})
    end.

(** [_.map(commandArgSegments, callback)] *)
Fixpoint scan_tokens (commandArgSegments : list string) (s : scan)
  : completion exn (list (option nat) * scan) :=
  match commandArgSegments with
  | [] => Normal ([], s)
  | t :: ts =>
      match scan_token t s with
      | Throw e => Throw e
      | Normal (v, s') =>
          match scan_tokens ts s' with
          | Throw e => Throw e
          | Normal (vs, s'') => Normal (v :: vs, s'')
          end
      end
  end.

(** [_buildCommandList]: the references that [_.compact] keeps, read
    in the heap as the loop left it. *)
Definition _buildCommandList (commandArgSegments : list string)
  : completion exn (list CommandModel) :=
  match scan_tokens commandArgSegments {| heap := []; commandModel := None |} with
  | Throw e => Throw e
  | Normal (commandList, s) =>
      Normal (omap (λ r : nat, heap s !! r) (_compact commandList))
  end.

(** [_buildTransmitCommandModels] *)
Definition _buildTransmitCommandModels
    (callsignOrSystemCommandName : string) (commandArgSegments : list string)
  : method () :=
  exec set_command (SYSTEM_COMMANDS !! "transmit") in
  exec set_callsign callsignOrSystemCommandName in
  match _buildCommandList commandArgSegments with
  | Throw e => throw e
  | Normal l => exec set_commandList l in _validateAndParseCommandArguments
  end.

(** [_extractCommandsAndArgs].  [split] returns at least one string, so
    that the first branch is never taken. *)
Definition _extractCommandsAndArgs (rawCommandWithArgs : string) : method () :=
  let commandArgSegmentsWithCallsign := split " " rawCommandWithArgs in
  match commandArgSegmentsWithCallsign !! 0%nat with
  | None => throw TypeError
  | Some callsignOrSystemCommandName =>
      let commandArgSegments := _tail commandArgSegmentsWithCallsign in
      if _isSystemCommand callsignOrSystemCommandName
      then _buildSystemCommandModel commandArgSegmentsWithCallsign
      else _buildTransmitCommandModels callsignOrSystemCommandName commandArgSegments
  end.

(** The body of the constructor, run on the fields' defaults: how it
    ends, and the fields of [this] at that point. *)
Definition constructor (rawCommandWithArgs : string)
  : completion exn () * CommandParser :=
  _extractCommandsAndArgs (toLowerCase rawCommandWithArgs)
    {| command := Some ""; callsign := ""; commandList := [] |}.

(** [new CommandParser(rawCommandWithArgs)], as its caller sees it: the
    object, or the exception. *)
Definition new_CommandParser (rawCommandWithArgs : string)
  : completion exn CommandParser :=
  match constructor rawCommandWithArgs with
  | (Normal _, this) => Normal this
  | (Throw e, _) => Throw e
  end.




End Methods.

(** The grouping of the tokens of a transmit line in the words of the
    specification, to be compared with [_buildCommandList]. *)
Section Grouping.
Context `{Env}.

(** A token resolves to a command when it is not empty and either
    matches the unicode-arrow pattern or is an alias of the command
    table. *)
Definition resolves (token : string) : bool :=
  negb (bool_decide (token = ""))
  && (REGEX_UNICODE_test token || _has COMMAND_MAP token).

(** The name the token resolves to: a unicode arrow is decoded
    first. *)
Definition canonical (token : string) : option string :=
  if REGEX_UNICODE_test token then COMMAND_MAP !! unicodeToString token
  else COMMAND_MAP !! token.

(** A token is an argument when it is not empty and does not
    resolve. *)
Definition is_argument (token : string) : bool :=
  negb (bool_decide (token = "")) && negb (resolves token).

(** The arguments of the record that is open in front of [tokens]: the
    tokens up to the next one that resolves, without the empty
    ones. *)
Fixpoint open_arguments (tokens : list string) : list (option string) :=
  match tokens with
  | [] => []
  | t :: ts =>
      if bool_decide (t = "") then open_arguments ts
      else if resolves t then []
      else Some t :: open_arguments ts
  end.

(** One record for each token that resolves, in the order of the
    tokens, with the arguments that follow it. *)
Fixpoint groups (tokens : list string) : list CommandModel :=
  match tokens with
  | [] => []
  | t :: ts =>
      if resolves t
      then {| name := canonical t; args := open_arguments ts;
              parsedArgs := None |} :: groups ts
      else groups ts
  end.

(** Several [args.push] in a row. *)
Definition push_all (a : list (option string)) (c : CommandModel) : CommandModel :=
  {| name := name c; args := args c ++ a; parsedArgs := parsedArgs c |}.

(** The first token that is not empty, if there is one. *)
Definition first_token (tokens : list string) : option string :=
  head (List.filter (λ t, negb (bool_decide (t = ""))) tokens).

End Grouping.

End Parser.

(** ** StandardRouteModel *)

Module Route.

(** What the class imports from files that are not among the sources at
    hand: [distance2d] of [math/distance] and [nm] of
    [utilities/unitConverters], with the numbers they compute on and the
    positions of the fixes.  They are parameters of the embedding. *)
Class Geometry := {
  number : Type;
  coords : Type;
  zero : number;
  (** the position of the fix of that name, as the fix collection
      resolves it *)
  fixPosition : string → coords;
  (** [distance2d(a, b)]: the planar distance between two positions *)
  distance2d : coords → coords → number;
  (** [nm(distance)]: the conversion to nautical miles *)
  nm : number → number
}.

Inductive exn : Type := TypeError.

(** One element of a fix list of the route definition: a bare fix name,
    or a pair of a fix name and a restriction code. *)
Inductive fixdef : Type :=
| FixName (fixName : string)
| FixWithRestriction (fixName restriction : string).

(** The [rwy], [entryPoints] and [exitPoints] objects: segment name to
    fix list, in the order of the keys. *)
Definition segments : Type := list (string * list fixdef).

(** The object handed to the constructor; a field is [None] when the
    object has no such key. *)
Record standardRoute := {
  def_icao : string;
  def_name : string;
  def_draw : list (list string);
  def_rwy : option segments;
  def_body : option (list fixdef);
  def_exitPoints : option segments;
  def_entryPoints : option segments
}.

(** An element of a resolved fix list: [[FIXNAME, FIX_RESTRICTIONS]]. *)
Definition fixEntry : Type := string * option string.

Section Model.
Context `{Geometry}.

(** Modelled from the spec: [StandardWaypointModel] (the Waypoint
    Record), whose file is not part of the sources: fix name, optional
    restriction, position, and the two annotations of the pre-spawn
    pass, absent until that pass has run. *)
Record StandardWaypointModel := {
  name : string;
  restrictions : option string;
  position : coords;
  distanceFromPreviousWaypoint : option number;
  previousStandardWaypointName : option string
}.

(** Modelled from the spec: [new StandardWaypointModel(fix)], for a bare
    fix name or a pair of a fix name and a restriction code. *)
Definition new_StandardWaypointModel (d : fixdef) : StandardWaypointModel :=
  match d with
  | FixName n =>
      {| name := n; restrictions := None; position := fixPosition n;
         distanceFromPreviousWaypoint := None;
         previousStandardWaypointName := None |}
  | FixWithRestriction n r =>
      {| name := n; restrictions := Some r; position := fixPosition n;
         distanceFromPreviousWaypoint := None;
         previousStandardWaypointName := None |}
  end.

(** Modelled from the spec: [RouteSegmentModel] (the Route Segment),
    whose file is not part of the sources: a name tag and an ordered
    list of waypoints. *)
Record RouteSegmentModel := {
  segmentName : string;
  items : list StandardWaypointModel
}.

(** Modelled from the spec: [new RouteSegmentModel(name, segmentFixList)];
    the fix list is [None] when the definition has none. *)
Definition new_RouteSegmentModel (n : string) (segmentFixList : option (list fixdef))
  : RouteSegmentModel :=
  {| segmentName := toLowerCase n;
     items := new_StandardWaypointModel <$> default [] segmentFixList |}.

(** Modelled from the spec: [segment.findWaypointsForSegment()], the fixes
    of the segment with their restrictions, in order. *)
Definition findWaypointsForSegment (s : RouteSegmentModel) : list fixEntry :=
  (λ w, (name w, restrictions w)) <$> items s.

(** Modelled from the spec: [RouteSegmentCollection] (the Segment
    Collection), whose file is not part of the sources: the segments
    of a [rwy] / [entryPoints] / [exitPoints] object, under
    case-normalized names, none of them with an empty fix list. *)
Record RouteSegmentCollection := {
  _items : list RouteSegmentModel
}.

(** Modelled from the spec: [new RouteSegmentCollection(segment)], one
    segment for each key whose fix list is not empty. *)
Definition new_RouteSegmentCollection (segment : segments) : RouteSegmentCollection :=
  {| _items :=
       (λ kv, new_RouteSegmentModel (fst kv) (Some (snd kv)))
         <$> List.filter (λ kv, negb (bool_decide (snd kv = []))) segment |}.

(** Modelled from the spec: [collection.findSegmentByName(name)], the
    segment of that name by case-normalized comparison, or the not-found
    signal [None], a nil value ([hasFixName] tests it with [_.isNil]). *)
Definition findSegmentByName (c : RouteSegmentCollection) (n : string)
  : option RouteSegmentModel :=
  List.find (λ s, bool_decide (segmentName s = toLowerCase n)) (_items c).

(** Modelled from the spec: [collection.findWaypointsForSegmentName(name)];
    an unmatched name contributes no fixes. *)
Definition findWaypointsForSegmentName (c : RouteSegmentCollection) (n : string)
  : list fixEntry :=
  match findSegmentByName c n with
  | Some s => findWaypointsForSegment s
  | None => []
  end.

(** The fields of a [StandardRouteModel].  The four raw data fields
    hold [None] for [undefined]; an empty object and an empty array
    are both the empty list. *)
Record StandardRouteModel := {
  routeName : string;
  icao : string;
  draw : list (list string);
  rwy : option segments;
  body : option (list fixdef);
  exitPoints : option segments;
  entryPoints : option segments;
  _bodySegmentModel : option RouteSegmentModel;
  _exitCollection : option RouteSegmentCollection;
  _entryCollection : option RouteSegmentCollection
}.

(** [_buildSegmentModel] *)
Definition _buildSegmentModel (segmentFixList : option (list fixdef))
  : RouteSegmentModel :=
  new_RouteSegmentModel "body" segmentFixList.

(** [_.isEmpty] on an object read as [segments] *)
Definition _isEmpty (segment : segments) : bool :=
  match segment with [] => true | _ => false end.

(** [_buildSegmentCollection] *)
Definition _buildSegmentCollection (segment : option segments)
  : option RouteSegmentCollection :=
  match segment with
  | None => None
  | Some segment =>
      if _isEmpty segment then None
      else Some (new_RouteSegmentCollection segment)
  end.

(** [_buildEntryAndExitCollections], on the model [_init] has filled
    so far. *)
Definition _buildEntryAndExitCollections (r : standardRoute) (this : StandardRouteModel)
  : StandardRouteModel :=
  if bool_decide (is_Some (def_entryPoints r)) then
    {| routeName := routeName this; icao := icao this; draw := draw this;
       rwy := rwy this; body := body this; exitPoints := exitPoints this;
       entryPoints := entryPoints this;
       _bodySegmentModel := _bodySegmentModel this;
       _exitCollection := _buildSegmentCollection (def_rwy r);
       _entryCollection := _buildSegmentCollection (def_entryPoints r) |}
  else if bool_decide (is_Some (def_exitPoints r)) then
    {| routeName := routeName this; icao := icao this; draw := draw this;
       rwy := rwy this; body := body this; exitPoints := exitPoints this;
       entryPoints := entryPoints this;
       _bodySegmentModel := _bodySegmentModel this;
       _exitCollection := _buildSegmentCollection (def_exitPoints r);
       _entryCollection := _buildSegmentCollection (def_rwy r) |}
  else this.

(** [_init]: [_.get(standardRoute, key, {})] is the empty object when
    the key is missing. *)
Definition _init (r : standardRoute) (this : StandardRouteModel) : StandardRouteModel :=
  _buildEntryAndExitCollections r
    {| routeName := def_name r; icao := def_icao r; draw := def_draw r;
       rwy := def_rwy r; body := def_body r;
       exitPoints := Some (default [] (def_exitPoints r));
       entryPoints := Some (default [] (def_entryPoints r));
       _bodySegmentModel := Some (_buildSegmentModel (def_body r));
       _exitCollection := _exitCollection this;
       _entryCollection := _entryCollection this |}.

(** [new StandardRouteModel(standardRoute)]: the defaults of the
    constructor, then [_init].  [entryPoints] is not among the fields
    the constructor declares. *)
Definition new_StandardRouteModel (r : standardRoute) : StandardRouteModel :=
  _init r
    {| routeName := ""; icao := ""; draw := []; rwy := Some [];
       body := Some []; exitPoints := Some []; entryPoints := None;
       _bodySegmentModel := None; _exitCollection := None;
       _entryCollection := None |}.

(** [reset] *)
Definition reset (this : StandardRouteModel) : StandardRouteModel :=
  {| icao := ""; routeName := ""; rwy := Some []; body := Some [];
     exitPoints := Some []; draw := [];
     _bodySegmentModel := None; _exitCollection := None;
     _entryCollection := None;
     entryPoints := entryPoints this |}.

(** [_generateFixList]: the three arrays are spread into one, whose
    elements are arrays or objects, and compacted. *)
Definition _generateFixList {A} (entrySegment bodySegment exitSegment : list A)
  : list A :=
  let fixList := entrySegment ++ bodySegment ++ exitSegment in
  _compact (Some <$> fixList).

(** [_.get(this, originalCollectionName, null)] for the names of the
    raw data fields. *)
Definition get_original (this : StandardRouteModel) (originalCollectionName : string)
  : option segments :=
  if bool_decide (originalCollectionName = "rwy") then rwy this
  else if bool_decide (originalCollectionName = "exitPoints") then exitPoints this
  else if bool_decide (originalCollectionName = "entryPoints") then entryPoints this
  else None.

(** [_.get(this, collectionName, null)] for the names of the two
    collections. *)
Definition get_collection (this : StandardRouteModel) (collectionName : string)
  : option RouteSegmentCollection :=
  if bool_decide (collectionName = "_entryCollection") then _entryCollection this
  else if bool_decide (collectionName = "_exitCollection") then _exitCollection this
  else None.

(** [_findFixListInByCollectionAndSegmentName] *)
Definition _findFixListInByCollectionAndSegmentName
    (this : StandardRouteModel)
    (originalCollectionName collectionName segmentName : string)
  : list fixEntry :=
  match get_original this originalCollectionName,
        get_collection this collectionName with
  | Some _, Some collection =>
      if bool_decide (segmentName = "") then []
      else findWaypointsForSegmentName collection segmentName
  | _, _ => []
  end.

(** [_findBodyFixList] *)
Definition _findBodyFixList (this : StandardRouteModel)
  : completion exn (list fixEntry) :=
  match body this with
  | None => Normal []
  | Some b =>
      if (length b =? 0)%nat then Normal []
      else match _bodySegmentModel this with
           | None => Throw TypeError
           | Some s => Normal (findWaypointsForSegment s)
           end
  end.

(** [_findFixListForSidByRunwayAndExit] *)
Definition _findFixListForSidByRunwayAndExit
    (this : StandardRouteModel) (runwayName exitFixName : string)
  : completion exn (list fixEntry) :=
  let entrySegment :=
    _findFixListInByCollectionAndSegmentName this "rwy" "_entryCollection" runwayName in
  try bodySegment ← _findBodyFixList this in
  let exitSegment :=
    _findFixListInByCollectionAndSegmentName this "exitPoints" "_exitCollection"
      exitFixName in
  Normal (_generateFixList entrySegment bodySegment exitSegment).

(** [_findFixListForStarByEntryAndRunway] *)
Definition _findFixListForStarByEntryAndRunway
    (this : StandardRouteModel) (entryFixName runwayName : string)
  : completion exn (list fixEntry) :=
  let entrySegment :=
    _findFixListInByCollectionAndSegmentName this "entryPoints" "_entryCollection"
      entryFixName in
  try bodySegment ← _findBodyFixList this in
  let exitSegment :=
    _findFixListInByCollectionAndSegmentName this "rwy" "_exitCollection" runwayName in
  Normal (_generateFixList entrySegment bodySegment exitSegment).

(** [segment.items], where [segment] is what [findSegmentByName]
    returned: reading a property of a nil value throws. *)
Definition segment_items (segment : option RouteSegmentModel)
  : completion exn (list StandardWaypointModel) :=
  match segment with
  | None => Throw TypeError
  | Some s => Normal (items s)
  end.

(** [_findStandardWaypointModelsForRoute] *)
Definition _findStandardWaypointModelsForRoute
    (this : StandardRouteModel) (entry exit : string)
  : completion exn (list StandardWaypointModel) :=
  try entrySegmentItems ←
    match _entryCollection this with
    | Some collection => segment_items (findSegmentByName collection entry)
    | None => Normal []
    end in
  try exitSegmentItems ←
    match _exitCollection this with
    | Some collection => segment_items (findSegmentByName collection exit)
    | None => Normal []
    end in
  try bodySegmentItems ← segment_items (_bodySegmentModel this) in
  Normal (_generateFixList entrySegmentItems bodySegmentItems exitSegmentItems).

(** [calculateDistanceBetweenWaypoints] *)
Definition calculateDistanceBetweenWaypoints (waypoint previousWaypoint : coords)
  : number :=
  let distance := distance2d previousWaypoint waypoint in
  nm distance.

(** The waypoint objects the pre-spawn pass works on form a store
    [σ : nat → StandardWaypointModel]: a reference is a natural number
    and [σ r] is the object it denotes.  The list the pass receives is
    a list of references, so that an object met twice is one
    object. *)

Definition annotated (w : StandardWaypointModel) (distance : number) (n : string)
  : StandardWaypointModel :=
  {| name := name w; restrictions := restrictions w; position := position w;
     distanceFromPreviousWaypoint := Some distance;
     previousStandardWaypointName := Some n |}.

(** The callback of [_updateWaypointsWithPreviousWaypointData], for the
    reference [waypoint] met at index [i]. *)
Definition update_waypoint (waypointModelList : list nat) (waypoint i : nat)
    (σ : nat → StandardWaypointModel)
  : completion exn (nat → StandardWaypointModel) :=
  let previousWaypoint :=
    if (i =? 0)%nat then Some waypoint else waypointModelList !! (i - 1)%nat in
  match previousWaypoint with
  | None => Throw TypeError
  | Some previousWaypoint =>
      let distance :=
        calculateDistanceBetweenWaypoints (position (σ waypoint))
          (position (σ previousWaypoint)) in
      Normal (<[waypoint := annotated (σ waypoint) distance
                              (name (σ previousWaypoint))]> σ)
  end.

(** [_.forEach(list, callback)], from index [i] on. *)
Fixpoint forEach_from (rest : list nat) (i : nat)
    (callback : nat → nat → (nat → StandardWaypointModel) → completion exn (nat → StandardWaypointModel)) (σ : nat → StandardWaypointModel)
  : completion exn (nat → StandardWaypointModel) :=
  match rest with
  | [] => Normal σ
  | x :: rest' =>
      try σ' ← callback x i σ in forEach_from rest' (S i) callback σ'
  end.

(** [_updateWaypointsWithPreviousWaypointData] *)
Definition _updateWaypointsWithPreviousWaypointData (waypointModelList : list nat)
    (σ : nat → StandardWaypointModel)
  : completion exn (nat → StandardWaypointModel) :=
  forEach_from waypointModelList 0 (update_waypoint waypointModelList) σ.

(** [findFixesAndRestrictionsForRunwayAndExit] *)
Definition findFixesAndRestrictionsForRunwayAndExit
    (this : StandardRouteModel) (runwayName exitFixName : string)
  : completion exn (list fixEntry) :=
  _findFixListForSidByRunwayAndExit this runwayName exitFixName.

(** [findFixesAndRestrictionsForEntryAndRunway] *)
Definition findFixesAndRestrictionsForEntryAndRunway
    (this : StandardRouteModel) (entryFixName runwayName : string)
  : completion exn (list fixEntry) :=
  _findFixListForStarByEntryAndRunway this entryFixName runwayName.

(** [!_.isNil(collection.findSegmentByName(fixName))] *)
Definition has_segment (c : RouteSegmentCollection) (fixName : string) : bool :=
  bool_decide (is_Some (findSegmentByName c fixName)).

(** [hasFixName]: the value of [a && b || c && d], which is [null] ([None])
    when the exit collection is null and the entry side is not truthy. *)
Definition hasFixName (this : StandardRouteModel) (fixName : string) : option bool :=
  let entrySide := (λ c, has_segment c fixName) <$> _entryCollection this in
  match entrySide with
  | Some true => Some true
  | _ => (λ c, has_segment c fixName) <$> _exitCollection this
  end.

(** [findStandardWaypointModelsForEntryAndExit], as the list its caller
    receives.  The waypoints of the three segments are distinct objects:
    for the pass they are allocated at the references 0, 1, ... in the
    order of the list, and read back after it.  (The first waypoint only
    serves as the object of the references beyond the list, which the
    pass never meets.) *)
Definition findStandardWaypointModelsForEntryAndExit
    (this : StandardRouteModel) (entry exit : string) (isPreSpawn : bool)
  : completion exn (list StandardWaypointModel) :=
  try waypointList ← _findStandardWaypointModelsForRoute this entry exit in
  if isPreSpawn then
    match waypointList with
    | [] => Normal []
    | w0 :: _ =>
        let references := seq 0 (length waypointList) in
        try σ ← _updateWaypointsWithPreviousWaypointData references
                  (λ r, default w0 (waypointList !! r)) in
        Normal (σ <$> references)
    end
  else Normal waypointList.

End Model.

End Route.

(** ** Concrete instances, for evaluating the embedding *)

Module Sample.

(** Modelled from the spec: [REGEX.UNICODE], the pattern of the reserved
    unicode arrows.  A token holds a character above U+00FF when its UTF-8
    encoding has a lead byte of 196 or more. *)
Fixpoint has_wide_character (s : string) : bool :=
  match s with
  | EmptyString => false
  | String c s' => (196 <=? nat_of_ascii c)%nat || has_wide_character s'
  end.

(** Modelled from the spec: a validator that checks the arity of a
    command; every command of the sample table takes exactly one
    argument. *)
Definition one_argument (n : option string) (a : list (option string))
  : option string :=
  match a with
  | [Some _] => None
  | _ => Some ("Invalid argument. Expected exactly one argument: "
               +:+ default "" n)
  end.

(** Modelled from the spec: a command table with the aliases of the
    examples of the specification ([aa777 fh 0270 d 050 sp 200] and
    [timewarp 50]); the tables of [commandMap] are not part of the
    sources. *)
Definition table : Parser.Env := {|
  Parser.error := string;
  Parser.parsed := string;
  Parser.SYSTEM_COMMANDS :=
    list_to_map [("timewarp", "timewarp"); ("pause", "pause");
                 ("transmit", "transmit")];
  Parser.COMMAND_MAP :=
    list_to_map [("fh", "heading"); ("d", "descend"); ("sp", "speed")];
  Parser.REGEX_UNICODE_test := has_wide_character;
  Parser.unicodeToString := λ s, s;
  Parser.validate := one_argument;
  Parser.parse := λ _ a, omap id a
|}.

(** The two records of the line [AA777 fh 0270 d], after validation. *)
Definition heading_0270 : @Parser.CommandModel table :=
  @Parser.Build_CommandModel table (Some "heading") [Some "0270"] (Some ["0270"]).

Definition descend_bare : @Parser.CommandModel table :=
  @Parser.Build_CommandModel table (Some "descend") [] None.

(** Construction and fix-list resolution do not look at positions: the
    geometry of a single point serves for them. *)
Definition point : Route.Geometry := {|
  Route.number := ();
  Route.coords := ();
  Route.zero := ();
  Route.fixPosition := λ _, ();
  Route.distance2d := λ _ _, ();
  Route.nm := λ _, ()
|}.

(** The SID of the example of the specification. *)
Definition sid : Route.standardRoute := {|
  Route.def_icao := "SID1";
  Route.def_name := "Sid One";
  Route.def_draw := [];
  Route.def_rwy := Some [("01L", [Route.FixName "A"; Route.FixName "B"])];
  Route.def_body := Some [Route.FixName "C"];
  Route.def_exitPoints := Some [("X", [Route.FixName "D"])];
  Route.def_entryPoints := None
|}.

(** A STAR. *)
Definition star : Route.standardRoute := {|
  Route.def_icao := "STAR1";
  Route.def_name := "Star One";
  Route.def_draw := [];
  Route.def_rwy := Some [("19R", [Route.FixName "G"])];
  Route.def_body := Some [Route.FixWithRestriction "F" "A80+"];
  Route.def_exitPoints := None;
  Route.def_entryPoints := Some [("E", [Route.FixName "E"])]
|}.



End Sample.

(** Modelled from the spec: [distance2d] and [nm], whose files are not
    part of the sources, on the plane of real coordinates: positions are
    pairs of kilometres, [distance2d] is the planar (Euclidean) distance
    and [nm] divides by the length of a nautical mile. *)
Module Plane.
Import Stdlib.Reals.Reals.
Local Open Scope R_scope.

Definition distance2d (a b : R * R) : R :=
  sqrt ((fst a - fst b) * (fst a - fst b) + (snd a - snd b) * (snd a - snd b)).

Definition nm (d : R) : R := d / 1.852.

Definition fixPosition (n : string) : R * R :=
  if bool_decide (n = "B") then (3, 4) else (0, 0).

Definition geometry : Route.Geometry := {|
  Route.number := R;
  Route.coords := R * R;
  Route.zero := 0;
  Route.fixPosition := fixPosition;
  Route.distance2d := distance2d;
  Route.nm := nm
|}.

(** Two waypoint objects: reference 0 is the fix A, every other
    reference the fix B. *)
Definition waypoints (r : nat) : @Route.StandardWaypointModel geometry :=
  @Route.new_StandardWaypointModel geometry
    (Route.FixName (if (r =? 0)%nat then "A" else "B")).

End Plane.


(** * Properties of the primitives *)

Module JSProps.

(** An array of objects has no falsy slot: compacting it changes
    nothing. *)
Lemma compact_somes {A} (l : list A) : _compact (Some <$> l) = l.
Proof.
  unfold _compact. induction l as [|x l IH]; [done|].
  cbn. f_equal. exact IH.
Qed.

Lemma split_example : split " " "a  b c" = ["a"; ""; "b"; "c"].
Proof. reflexivity. Qed.

Lemma toLowerCase_example : toLowerCase "AA777 fh 0270" = "aa777 fh 0270".
Proof. reflexivity. Qed.

End JSProps.

(** * Properties of the command interpreter *)

Module ParserProps.
Import Parser.

Section Facts.
Context `{Env}.

(** *** The loop of [_buildCommandList] *)

Lemma scan_token_empty s : scan_token "" s = Normal (None, s).
Proof. reflexivity. Qed.

Lemma scan_token_resolves t s :
  resolves t = true →
  scan_token t s =
    Normal (Some (length (heap s)),
            {| heap := heap s ++ [new_CommandModel (canonical t)];
               commandModel := Some (length (heap s)) |}).
Proof.
  unfold resolves, scan_token, canonical. intros Hr.
  apply andb_true_iff in Hr as [Hne Hr]. apply negb_true_iff in Hne.
  rewrite Hne. destruct (REGEX_UNICODE_test t); [done|].
  simpl in Hr. by rewrite Hr.
Qed.

Lemma scan_token_argument t s :
  is_argument t = true →
  scan_token t s =
    match commandModel s with
    | None => Throw TypeError
    | Some r =>
        Normal (None,
                {| heap := alter (args_push (Some t)) r (heap s);
                   commandModel := Some r |})
    end.
Proof.
  unfold is_argument, resolves, scan_token. intros Ha.
  apply andb_true_iff in Ha as [Hne Ha]. apply negb_true_iff in Hne.
  rewrite Hne in *. simpl in Ha. apply negb_true_iff in Ha.
  apply orb_false_iff in Ha as [-> ->]. done.
Qed.

Lemma token_cases t : t = "" ∨ resolves t = true ∨ is_argument t = true.
Proof.
  unfold is_argument, resolves.
  destruct (bool_decide_reflect (t = "")) as [->|Hne]; [by left|right].
  simpl. destruct (REGEX_UNICODE_test t || _has COMMAND_MAP t); auto.
Qed.

Lemma resolves_nonempty t : resolves t = true → t ≠ "".
Proof. intros Hr ->. done. Qed.

Lemma is_argument_nonempty t : is_argument t = true → t ≠ "".
Proof. intros Hr ->. done. Qed.

Lemma is_argument_not_resolves t : is_argument t = true → resolves t = false.
Proof.
  unfold is_argument. intros Ha. apply andb_true_iff in Ha as [_ Ha].
  by apply negb_true_iff in Ha.
Qed.

Lemma push_all_nil c : push_all [] c = c.
Proof. destruct c. unfold push_all. simpl. by rewrite app_nil_r. Qed.

Lemma push_all_cons x a c : push_all (x :: a) c = push_all a (args_push x c).
Proof. unfold push_all, args_push. simpl. by rewrite <- app_assoc. Qed.

(** With a record open at reference [r], the loop never throws: it
    appends the open arguments to that record and allocates the
    groups of the tokens after it, in order. *)
Lemma scan_tokens_open tokens : ∀ h r c,
  h !! r = Some c →
  ∃ out,
    scan_tokens tokens {| heap := h; commandModel := Some r |} =
      Normal (out,
              {| heap := <[r := push_all (open_arguments tokens) c]> h
                         ++ groups tokens;
                 commandModel :=
                   match groups tokens with
                   | [] => Some r
                   | _ => Some (length h + length (groups tokens) - 1)%nat
                   end |})
    ∧ _compact out = seq (length h) (length (groups tokens)).
Proof.
  induction tokens as [|t ts IH]; intros h r c Hr.
  - exists []. simpl. rewrite push_all_nil, list_insert_id, app_nil_r by done.
    done.
  - destruct (token_cases t) as [->|[Ht|Ht]].
    + simpl. destruct (IH h r c Hr) as (out & -> & Hout).
      exists (None :: out). done.
    + cbn [scan_tokens]. rewrite (scan_token_resolves _ _ Ht). cbn [heap].
      assert (Hnew : (h ++ [new_CommandModel (canonical t)]) !! length h
                     = Some (new_CommandModel (canonical t))).
      { rewrite lookup_app_r by lia. by rewrite Nat.sub_diag. }
      destruct (IH _ _ _ Hnew) as (out & -> & Hout).
      exists (Some (length h) :: out). cbn [open_arguments groups].
      rewrite (bool_decide_eq_false_2 _ (resolves_nonempty _ Ht)), Ht.
      rewrite push_all_nil, (list_insert_id h r c Hr).
      rewrite length_app in *. cbn [length] in *. split.
      * f_equal. f_equal. f_equal.
        -- rewrite insert_app_r_alt by lia. rewrite Nat.sub_diag. simpl.
           unfold push_all, new_CommandModel. simpl.
           by rewrite <- app_assoc.
        -- destruct (groups ts); simpl; f_equal; lia.
      * unfold _compact in *. cbn. rewrite Hout. f_equal.
        replace (length h + 1)%nat with (S (length h)) by lia. done.
    + cbn [scan_tokens]. rewrite (scan_token_argument _ _ Ht). cbn [commandModel heap].
      assert (Hr' : alter (args_push (Some t)) r h !! r = Some (args_push (Some t) c)).
      { rewrite list_lookup_alter_eq, Hr. done. }
      destruct (IH _ _ _ Hr') as (out & -> & Hout).
      exists (None :: out). cbn [open_arguments groups].
      rewrite (bool_decide_eq_false_2 _ (is_argument_nonempty _ Ht)).
      rewrite (is_argument_not_resolves _ Ht).
      rewrite length_alter in *. split; [|done].
      f_equal. f_equal. f_equal. f_equal.
      rewrite push_all_cons.
      apply list_eq. intros i. destruct (decide (i = r)) as [->|Hne].
      * rewrite !list_lookup_insert_eq; [done| |].
        -- by eapply lookup_lt_Some.
        -- rewrite length_alter. by eapply lookup_lt_Some.
      * rewrite !list_lookup_insert_ne by done.
        by rewrite list_lookup_alter_ne.
Qed.

Lemma first_token_cons t ts :
  first_token (t :: ts) = if bool_decide (t = "") then first_token ts else Some t.
Proof. unfold first_token. simpl. by destruct (bool_decide (t = "")). Qed.

Lemma resolves_empty : resolves "" = false.
Proof. reflexivity. Qed.

(** From the start of the loop, where no record is open yet. *)
Lemma scan_tokens_start tokens :
  match first_token tokens with
  | None =>
      groups tokens = []
      ∧ ∃ out, scan_tokens tokens {| heap := []; commandModel := None |}
               = Normal (out, {| heap := []; commandModel := None |})
               ∧ _compact out = []
  | Some t =>
      if resolves t then
        ∃ out s, scan_tokens tokens {| heap := []; commandModel := None |}
                 = Normal (out, s)
                 ∧ _compact out = seq 0 (length (groups tokens))
                 ∧ heap s = groups tokens
      else scan_tokens tokens {| heap := []; commandModel := None |}
           = Throw TypeError
  end.
Proof.
  induction tokens as [|t ts IH]; [by split; [|exists []]|].
  rewrite first_token_cons.
  destruct (token_cases t) as [->|[Ht|Ht]].
  - simpl. destruct (first_token ts) as [t'|].
    + destruct (resolves t').
      * destruct IH as (out & s & -> & Hout & Hs). by exists (None :: out), s.
      * by rewrite IH.
    + destruct IH as (Hg & out & -> & Hout). split; [done|]. by exists (None :: out).
  - rewrite (bool_decide_eq_false_2 _ (resolves_nonempty _ Ht)), Ht.
    cbn [scan_tokens]. rewrite (scan_token_resolves _ _ Ht). cbn [heap length app].
    destruct (scan_tokens_open ts [new_CommandModel (canonical t)] 0
                (new_CommandModel (canonical t)) eq_refl) as (out & -> & Hout).
    eexists (Some 0%nat :: out), _. split; [done|].
    cbn [groups heap]. rewrite Ht. split.
    + unfold _compact in *. cbn. by rewrite Hout.
    + done.
  - rewrite (bool_decide_eq_false_2 _ (is_argument_nonempty _ Ht)).
    rewrite (is_argument_not_resolves _ Ht).
    cbn [scan_tokens]. by rewrite (scan_token_argument _ _ Ht).
Qed.

Lemma read_allocated (h g : list CommandModel) :
  omap (λ r : nat, (h ++ g) !! r) (seq (length h) (length g)) = g.
Proof.
  revert h. induction g as [|c g IH]; intros h; [done|].
  cbn. rewrite lookup_app_r, Nat.sub_diag by lia. cbn. f_equal.
  specialize (IH (h ++ [c])). rewrite length_app, <- app_assoc in IH.
  cbn in IH. replace (length h + 1)%nat with (S (length h)) in IH by lia.
  exact IH.
Qed.

(** [_buildCommandList] against the grouping of the specification: it
    returns the groups when the first token that is not empty
    resolves (or when there is no such token), and throws
    otherwise. *)
Lemma _buildCommandList_groups tokens :
  _buildCommandList tokens =
    match first_token tokens with
    | None => Normal (groups tokens)
    | Some t => if resolves t then Normal (groups tokens) else Throw TypeError
    end.
Proof.
  unfold _buildCommandList. pose proof (scan_tokens_start tokens) as Hs.
  destruct (first_token tokens) as [t|].
  - destruct (resolves t).
    + destruct Hs as (out & s & -> & -> & Hh). f_equal.
      rewrite Hh. apply (read_allocated [] (groups tokens)).
    + by rewrite Hs.
  - destruct Hs as (-> & out & -> & ->). done.
Qed.

(** *** The grouping itself *)







(** *** Validation and parsing *)

Lemma _validateCommandArguments_run this :
  _validateCommandArguments this =
    (Normal (omap validateArgs (commandList this)),
     {| command := command this; callsign := callsign this;
        commandList := (λ c, snd (validate_or_parse c)) <$> commandList this |}).
Proof.
  unfold _validateCommandArguments, bind, get_commandList, set_commandList, ret.
  cbn. f_equal.
  - f_equal. unfold _compact. induction (commandList this) as [|c l IH]; [done|].
    cbn. rewrite IH. unfold validate_or_parse. by destruct (validateArgs c).
  - f_equal. by rewrite <- list_fmap_compose.
Qed.

Lemma _forEach_throw (e : error) es this :
  _forEach (e :: es) (λ e, throw (ValidationError e)) this
  = (Throw (ValidationError e), this).
Proof. reflexivity. Qed.

(** Of the errors the validators returned, the first one is thrown. *)
Lemma _validateAndParseCommandArguments_run this :
  _validateAndParseCommandArguments this =
    (match omap validateArgs (commandList this) with
     | [] => Normal ()
     | e :: _ => Throw (ValidationError e)
     end,
     {| command := command this; callsign := callsign this;
        commandList := (λ c, snd (validate_or_parse c)) <$> commandList this |}).
Proof.
  unfold _validateAndParseCommandArguments, bind.
  rewrite _validateCommandArguments_run.
  destruct (omap validateArgs (commandList this)) as [|e es]; [done|].
  cbn [length Nat.ltb Nat.leb]. by rewrite _forEach_throw.
Qed.

Lemma validate_or_parse_keeps c :
  name (snd (validate_or_parse c)) = name c
  ∧ args (snd (validate_or_parse c)) = args c.
Proof. unfold validate_or_parse. by destruct (validateArgs c). Qed.

Lemma validateArgs_after c :
  validateArgs (snd (validate_or_parse c)) = validateArgs c.
Proof.
  unfold validateArgs. by destruct (validate_or_parse_keeps c) as [-> ->].
Qed.

Lemma no_errors_all_valid (l : list CommandModel) :
  omap validateArgs l = [] ↔ Forall (λ c, validateArgs c = None) l.
Proof.
  induction l as [|c l IH]; [done|]. cbn.
  destruct (validateArgs c) eqn:Hc.
  - split; [done|]. intros Hf. inversion Hf; congruence.
  - rewrite IH. split; [by constructor|]. intros Hf. by inversion Hf.
Qed.

Lemma none_fails_after_validation (l : list CommandModel) :
  Forall (λ c, validateArgs c = None) l →
  ¬ Exists (λ c, validateArgs c ≠ None) ((λ c, snd (validate_or_parse c)) <$> l).
Proof.
  induction 1 as [|c l Hc Hl IH]; intros Hex.
  - inversion Hex.
  - rewrite fmap_cons in Hex. inversion Hex as [? ? Hne|? ? Hex']; subst.
    + rewrite validateArgs_after in Hne. by apply Hne.
    + by apply IH.
Qed.

(** *** The constructor *)

Lemma split_cons sep s : ∃ t ts, split sep s = t :: ts.
Proof.
  induction s as [|c s IH]; simpl; [by eexists _, _|].
  destruct (Ascii.eqb c sep); [by eexists _, _|].
  destruct IH as (t & ts & ->). by eexists _, _.
Qed.

Lemma constructor_system raw t0 rest :
  split " " (toLowerCase raw) = t0 :: rest →
  _isSystemCommand t0 = true →
  constructor raw =
    _validateAndParseCommandArguments
      {| command := Some t0; callsign := "";
         commandList := [ {| name := Some t0; args := [rest !! 0%nat];
                             parsedArgs := None |} ] |}.
Proof.
  intros Hs Ht. unfold constructor, _extractCommandsAndArgs. rewrite Hs.
  cbn [lookup list_lookup]. rewrite Ht. unfold _buildSystemCommandModel.
  reflexivity.
Qed.

Lemma constructor_transmit raw t0 rest :
  split " " (toLowerCase raw) = t0 :: rest →
  _isSystemCommand t0 = false →
  constructor raw =
    match _buildCommandList rest with
    | Throw e =>
        (Throw e, {| command := SYSTEM_COMMANDS !! "transmit"; callsign := t0;
                     commandList := [] |})
    | Normal l =>
        _validateAndParseCommandArguments
          {| command := SYSTEM_COMMANDS !! "transmit"; callsign := t0;
             commandList := l |}
    end.
Proof.
  intros Hs Ht. unfold constructor, _extractCommandsAndArgs. rewrite Hs.
  cbn [lookup list_lookup]. rewrite Ht. unfold _buildTransmitCommandModels.
  cbn [_tail]. unfold bind at 1 2. cbn.
  by destruct (_buildCommandList rest).
Qed.

(** However the constructor ends, either no record was built, or it
    ended in [_validateAndParseCommandArguments]. *)
Lemma constructor_cases raw :
  (∃ this, constructor raw = (Throw TypeError, this) ∧ commandList this = [])
  ∨ (∃ this0, constructor raw = _validateAndParseCommandArguments this0).
Proof.
  destruct (split_cons " " (toLowerCase raw)) as (t0 & rest & Hs).
  destruct (_isSystemCommand t0) eqn:Ht.
  - right. eexists. by apply constructor_system.
  - rewrite (constructor_transmit _ _ _ Hs Ht).
    rewrite _buildCommandList_groups.
    destruct (first_token rest) as [t|]; [destruct (resolves t)|]; eauto.
Qed.

(** C2 (as amended): interpretation is all-or-nothing for the caller.
    If a Command Record of the line fails validation, the constructor
    throws and hands no command list to its caller; and when it
    returns, every record of the list passed validation and carries
    its parsed arguments. *)
Theorem all_or_nothing_for_caller raw r this :
  constructor raw = (r, this) →
  (Exists (λ c, validateArgs c ≠ None) (commandList this) →
   ∃ e, new_CommandParser raw = Throw e)
  ∧ (∀ this', new_CommandParser raw = Normal this' →
       this' = this
       ∧ Forall (λ c, validateArgs c = None
                      ∧ parsedArgs c = Some (parse (name c) (args c)))
           (commandList this')).
Proof.
  intros Hc. unfold new_CommandParser. rewrite Hc.
  destruct (constructor_cases raw) as [(this0 & H0 & Hnil)|(this0 & H0)].
  - rewrite Hc in H0. injection H0 as -> ->. rewrite Hnil. split.
    + intros Hex. by apply Exists_nil in Hex.
    + intros this' [=].
  - rewrite Hc, _validateAndParseCommandArguments_run in H0.
    injection H0 as -> ->. cbn [commandList]. split.
    + intros Hex. destruct (omap validateArgs (commandList this0)) eqn:Hv; [|eauto].
      exfalso. apply no_errors_all_valid in Hv.
      by apply (none_fails_after_validation _ Hv).
    + intros this'. destruct (omap validateArgs (commandList this0)) eqn:Hv; [|done].
      intros [= <-]. split; [done|]. cbn [commandList].
      apply no_errors_all_valid in Hv. apply Forall_fmap.
      revert Hv. apply List.Forall_impl. intros c Hvc. cbn.
      rewrite validateArgs_after. split; [done|].
      unfold validate_or_parse. by rewrite Hvc.
Qed.


(** C7: on a line whose first token is a system alias other than the
    transmit marker, the command list holds exactly one Command
    Record, named by that token, whose only argument slot holds the
    second token (nothing when there is none); the constructor returns
    that list when it returns; and the tokens after the second play no
    part in the outcome. *)
Theorem system_line_single_record raw t0 rest :
  split " " (toLowerCase raw) = t0 :: rest →
  _isSystemCommand t0 = true →
  (∃ c, commandList (snd (constructor raw)) = [c]
        ∧ name c = Some t0
        ∧ args c = [rest !! 0%nat]
        ∧ _compact (args c) = option_list (rest !! 0%nat)
        ∧ (length (_compact (args c)) ≤ 1)%nat)
  ∧ command (snd (constructor raw)) = Some t0
  ∧ (∀ this, new_CommandParser raw = Normal this → this = snd (constructor raw))
  ∧ (∀ raw' rest',
       split " " (toLowerCase raw') = t0 :: rest' →
       rest' !! 0%nat = rest !! 0%nat →
       constructor raw' = constructor raw).
Proof.
  intros Hs Ht. rewrite (constructor_system _ _ _ Hs Ht).
  rewrite _validateAndParseCommandArguments_run. cbn [snd commandList command].
  split; [|split; [done|split]].
  - eexists. split; [reflexivity|].
    destruct (validate_or_parse_keeps
                {| name := Some t0; args := [rest !! 0%nat]; parsedArgs := None |})
      as [-> ->]. cbn [name args].
    repeat split; unfold _compact; destruct (rest !! 0%nat); cbn; lia.
  - intros this. unfold new_CommandParser.
    rewrite (constructor_system _ _ _ Hs Ht), _validateAndParseCommandArguments_run.
    cbn. destruct (validateArgs _); [done|]. by intros [= <-].
  - intros raw' rest' Hs' Hr.
    rewrite (constructor_system _ _ _ Hs' Ht), _validateAndParseCommandArguments_run.
    cbn [commandList command callsign]. by rewrite Hr.
Qed.


End Facts.

(** *** On the sample command table *)

(** C1 (the code departs from it): on the line [AA777 fh d] both Command
    Records fail validation and both errors are collected, yet the
    constructor throws the first error alone: the [throw] inside
    [_.forEach] ends the loop at its first turn. *)
Theorem only_first_error_is_thrown :
  let heading := "Invalid argument. Expected exactly one argument: heading" in
  let descend := "Invalid argument. Expected exactly one argument: descend" in
  ∃ l,
    @_buildCommandList Sample.table ["fh"; "d"] = Normal l
    ∧ fst (@_validateCommandArguments Sample.table
             {| command := Some "transmit"; callsign := "aa777"; commandList := l |})
      = Normal [heading; descend]
    ∧ @new_CommandParser Sample.table "AA777 fh d"
      = Throw (@ValidationError Sample.table heading).
Proof. eexists. repeat split; vm_compute; reflexivity. Qed.

(** C2 (as stated, refuted): on the line [AA777 fh 0270 d] the record of
    [d] fails validation, and the record of [fh] has been given its
    parsed arguments all the same. *)
Lemma valid_record_parsed_beside_invalid :
  let this := snd (@constructor Sample.table "AA777 fh 0270 d") in
  ¬ (Exists (λ c, @validateArgs Sample.table c ≠ None) (commandList this) →
     Forall (λ c, parsedArgs c = None) (commandList this)).
Proof.
  assert (E : commandList (snd (@constructor Sample.table "AA777 fh 0270 d"))
              = [Sample.heading_0270; Sample.descend_bare])
    by (vm_compute; reflexivity).
  cbv zeta. rewrite E. intros Hclaim.
  assert (Hfail : Exists (λ c, @validateArgs Sample.table c ≠ None)
                    [Sample.heading_0270; Sample.descend_bare]).
  { apply Exists_cons_tl, Exists_cons_hd. vm_compute. discriminate. }
  specialize (Hclaim Hfail). inversion Hclaim as [|? ? Hparsed _]. discriminate.
Qed.

Lemma all_or_nothing_for_caller_witness :
  ∃ this,
    @new_CommandParser Sample.table "AA777 fh 0270 d 050 sp 200" = Normal this
    ∧ Forall (λ c, @validateArgs Sample.table c = None
                   ∧ parsedArgs c = Some (parse (name c) (args c)))
        (commandList this).
Proof.
  eexists. split; [vm_compute; reflexivity|].
  eapply (all_or_nothing_for_caller (H:=Sample.table)
            "AA777 fh 0270 d 050 sp 200" (Normal ())).
  - vm_compute. reflexivity.
  - vm_compute. reflexivity.
Defined.


Lemma system_line_single_record_witness :
  ∃ c, commandList (snd (@constructor Sample.table "timewarp 50 60")) = [c]
       ∧ name c = Some "timewarp"
       ∧ args c = [Some "50"].
Proof.
  destruct (system_line_single_record (H:=Sample.table)
              "timewarp 50 60" "timewarp" ["50"; "60"]
              ltac:(vm_compute; reflexivity) ltac:(vm_compute; reflexivity))
    as ((c & Hc & Hn & Ha & _) & _).
  exists c. split; [exact Hc|]. split; [exact Hn|]. exact Ha.
Defined.


End ParserProps.

(** * Properties of the procedure model *)

Module RouteProps.
Import Route.

Section Facts.
Context `{Geometry}.

Lemma _generateFixList_app {A} (entry body exit : list A) :
  _generateFixList entry body exit = entry ++ body ++ exit.
Proof. unfold _generateFixList. apply JSProps.compact_somes. Qed.

(** *** Construction *)

Lemma new_fields r :
  let this := new_StandardRouteModel r in
  rwy this = def_rwy r
  ∧ body this = def_body r
  ∧ exitPoints this = Some (default [] (def_exitPoints r))
  ∧ entryPoints this = Some (default [] (def_entryPoints r))
  ∧ _bodySegmentModel this = Some (_buildSegmentModel (def_body r)).
Proof.
  unfold new_StandardRouteModel, _init, _buildEntryAndExitCollections. cbn.
  destruct (bool_decide (is_Some (def_entryPoints r)));
    [|destruct (bool_decide (is_Some (def_exitPoints r)))]; done.
Qed.


Lemma reset_entryPoints this : entryPoints (reset this) = entryPoints this.
Proof. reflexivity. Qed.

(** C9 (the code departs from it): [reset] on the model of the sample
    STAR empties every field it assigns, and leaves [entryPoints],
    which it does not assign, as [_init] set it. *)
Theorem reset_keeps_entryPoints :
  let this := reset (new_StandardRouteModel Sample.star) in
  entryPoints this = Some [("E", [FixName "E"])]
  ∧ icao this = "" ∧ routeName this = "" ∧ draw this = []
  ∧ rwy this = Some [] ∧ body this = Some [] ∧ exitPoints this = Some []
  ∧ _bodySegmentModel this = None
  ∧ _exitCollection this = None ∧ _entryCollection this = None.
Proof. repeat split. Qed.

(** *** Resolution *)

(** A side contributes no fix when its collection is null, when its
    raw data is undefined, or when the segment name is empty or
    matches no segment. *)
Lemma side_without_fixes this original collection segmentName :
  get_collection this collection = None
  ∨ get_original this original = None
  ∨ segmentName = ""
  ∨ (∀ c, get_collection this collection = Some c →
          findSegmentByName c segmentName = None) →
  _findFixListInByCollectionAndSegmentName this original collection segmentName = [].
Proof.
  unfold _findFixListInByCollectionAndSegmentName, findWaypointsForSegmentName.
  intros [->|[->|[->|Hn]]].
  - by destruct (get_original this original).
  - done.
  - by destruct (get_original this original), (get_collection this collection).
  - destruct (get_original this original); [|done].
    destruct (get_collection this collection) as [c|]; [|done].
    rewrite (Hn c eq_refl). by destruct (bool_decide (segmentName = "")).
Qed.

(** A side whose collection is there contributes the fixes of the segment
    the name matches. *)
Lemma side_with_fixes this original collection segmentName data c s :
  get_original this original = Some data →
  get_collection this collection = Some c →
  segmentName ≠ "" →
  findSegmentByName c segmentName = Some s →
  _findFixListInByCollectionAndSegmentName this original collection segmentName
  = findWaypointsForSegment s.
Proof.
  intros Ho Hc Hn Hs.
  unfold _findFixListInByCollectionAndSegmentName, findWaypointsForSegmentName.
  by rewrite Ho, Hc, (bool_decide_eq_false_2 _ Hn), Hs.
Qed.

Lemma _findBodyFixList_new r :
  _findBodyFixList (new_StandardRouteModel r)
  = Normal (findWaypointsForSegment (_buildSegmentModel (def_body r))).
Proof.
  destruct (new_fields r) as (_ & Hb & _ & _ & Hm).
  unfold _findBodyFixList. rewrite Hb, Hm.
  destruct (def_body r) as [[|d b]|]; done.
Qed.

(** C5: fix-list resolution is the fixes of the entry side, then all
    the body fixes, then the fixes of the exit side, for a SID and for
    a STAR; the SID of the example, resolved for runway 01L and exit
    X, gives A, B, C, D in that order. *)
Theorem fix_list_entry_body_exit :
  (∀ r runwayName exitFixName,
     let this := new_StandardRouteModel r in
     _findFixListForSidByRunwayAndExit this runwayName exitFixName
     = Normal
         (_findFixListInByCollectionAndSegmentName this "rwy" "_entryCollection"
            runwayName
          ++ findWaypointsForSegment (_buildSegmentModel (def_body r))
          ++ _findFixListInByCollectionAndSegmentName this "exitPoints"
               "_exitCollection" exitFixName))
  ∧ (∀ r entryFixName runwayName,
       let this := new_StandardRouteModel r in
       _findFixListForStarByEntryAndRunway this entryFixName runwayName
       = Normal
           (_findFixListInByCollectionAndSegmentName this "entryPoints"
              "_entryCollection" entryFixName
            ++ findWaypointsForSegment (_buildSegmentModel (def_body r))
            ++ _findFixListInByCollectionAndSegmentName this "rwy"
                 "_exitCollection" runwayName))
  ∧ _findFixListForSidByRunwayAndExit (new_StandardRouteModel Sample.sid) "01L" "X"
    = Normal [("A", None); ("B", None); ("C", None); ("D", None)].
Proof.
  split; [|split].
  - intros r rn xn this. unfold _findFixListForSidByRunwayAndExit. subst this.
    rewrite _findBodyFixList_new. cbn [bindc]. by rewrite _generateFixList_app.
  - intros r en rn this. unfold _findFixListForStarByEntryAndRunway. subst this.
    rewrite _findBodyFixList_new. cbn [bindc]. by rewrite _generateFixList_app.
  - reflexivity.
Qed.

(** With both collections null, waypoint resolution returns the
    waypoints of the body. *)
Lemma waypoints_without_sides this b entry exit :
  _entryCollection this = None →
  _exitCollection this = None →
  _bodySegmentModel this = Some b →
  _findStandardWaypointModelsForRoute this entry exit = Normal (items b).
Proof.
  intros He Hx Hb. unfold _findStandardWaypointModelsForRoute.
  rewrite He, Hx, Hb. cbn [bindc segment_items].
  rewrite _generateFixList_app. cbn [app]. by rewrite app_nil_r.
Qed.

(** A name that matches no segment of a collection that is there makes
    waypoint resolution throw. *)
Lemma waypoints_unmatched_entry this c entry exit :
  _entryCollection this = Some c →
  findSegmentByName c entry = None →
  _findStandardWaypointModelsForRoute this entry exit = Throw TypeError.
Proof.
  intros He Hn. unfold _findStandardWaypointModelsForRoute. by rewrite He, Hn.
Qed.

(** C4 (the code departs from it): on the model of the sample SID,
    waypoint resolution throws a [TypeError] when the exit name matches
    no segment, when it is empty, and when the runway name is empty,
    where fix-list resolution returns the remaining sides. *)
Theorem unmatched_segment_name_throws :
  let this := new_StandardRouteModel Sample.sid in
  _findStandardWaypointModelsForRoute this "01L" "ZZZ" = Throw TypeError
  ∧ _findStandardWaypointModelsForRoute this "01L" "" = Throw TypeError
  ∧ _findStandardWaypointModelsForRoute this "" "X" = Throw TypeError
  ∧ _findFixListForSidByRunwayAndExit this "01L" "ZZZ"
    = Normal [("A", None); ("B", None); ("C", None)]
  ∧ _findFixListForSidByRunwayAndExit this "01L" ""
    = Normal [("A", None); ("B", None); ("C", None)].
Proof. repeat split. Qed.

(** *** The pre-spawn pass *)

Lemma annotated_keeps w d n :
  name (annotated w d n) = name w ∧ position (annotated w d n) = position w.
Proof. done. Qed.

(** The reference in front of index [i] of the list, the one at index
    0 standing in front of itself. *)
Lemma update_waypoint_run l pre w rest σ :
  l = pre ++ w :: rest →
  ∃ p,
    (if (length pre =? 0)%nat then Some w else l !! (length pre - 1)%nat) = Some p
    ∧ update_waypoint l w (length pre) σ
      = Normal (<[w := annotated (σ w)
                         (nm (distance2d (position (σ p)) (position (σ w))))
                         (name (σ p))]> σ).
Proof.
  intros ->. unfold update_waypoint, calculateDistanceBetweenWaypoints.
  destruct pre as [|x pre _] using rev_ind; [by exists w|].
  rewrite length_app. cbn [length].
  replace (length pre + 1 =? 0)%nat with false
    by (symmetry; apply Nat.eqb_neq; lia).
  replace (length pre + 1 - 1)%nat with (length pre) by lia.
  rewrite <- app_assoc, lookup_app_r by lia.
  rewrite Nat.sub_diag. by exists x.
Qed.

(** The loop from index [length pre] on: an object holds the annotation
    of the last index it is met at, computed from the reference in front
    of that index; names and positions stay, and no other object
    changes. *)
Lemma forEach_from_annotates l : ∀ rest pre σ,
  l = pre ++ rest →
  ∃ σ',
    forEach_from rest (length pre) (update_waypoint l) σ = Normal σ'
    ∧ (∀ r, name (σ' r) = name (σ r) ∧ position (σ' r) = position (σ r))
    ∧ (∀ r, r ∉ rest → σ' r = σ r)
    ∧ (∀ j w p,
         rest !! j = Some w →
         w ∉ drop (S j) rest →
         (if (length pre + j =? 0)%nat then Some w
          else l !! (length pre + j - 1)%nat) = Some p →
         distanceFromPreviousWaypoint (σ' w)
         = Some (nm (distance2d (position (σ p)) (position (σ w))))
         ∧ previousStandardWaypointName (σ' w) = Some (name (σ p))).
Proof.
  induction rest as [|w rest IH]; intros pre σ Hl.
  - exists σ. by repeat split.
  - destruct (update_waypoint_run l pre w rest σ Hl) as (p & Hp & Hrun).
    cbn [forEach_from]. rewrite Hrun. cbn [bindc].
    set (σ1 := <[w := _]> σ).
    assert (Hkeep : ∀ r, name (σ1 r) = name (σ r) ∧ position (σ1 r) = position (σ r)).
    { intros r. subst σ1. destruct (decide (w = r)) as [->|Hne].
      - by rewrite fn_lookup_insert.
      - by rewrite fn_lookup_insert_ne. }
    destruct (IH (pre ++ [w]) σ1) as (σ' & Hloop & Hnames & Hframe & Hann).
    { by rewrite <- app_assoc. }
    rewrite length_app in Hloop, Hann. cbn [length] in Hloop, Hann.
    rewrite Nat.add_1_r in Hloop. exists σ'. split; [exact Hloop|].
    split; [|split].
    + intros r. destruct (Hnames r) as [-> ->]. apply Hkeep.
    + intros r Hr. apply not_elem_of_cons in Hr as [Hr1 Hr2].
      rewrite (Hframe r Hr2). subst σ1. by rewrite fn_lookup_insert_ne.
    + intros j w' p' Hj Hlast Hp'. destruct j as [|j].
      * injection Hj as <-. rewrite Nat.add_0_r, Hp in Hp'. injection Hp' as <-.
        cbn [drop] in Hlast.
        rewrite (Hframe w Hlast). subst σ1. by rewrite fn_lookup_insert.
      * cbn in Hj. cbn [drop] in Hlast.
        replace (length pre + S j)%nat with (length pre + 1 + j)%nat in Hp' by lia.
        destruct (Hann j w' p' Hj Hlast Hp') as [Hd Hn].
        destruct (Hkeep p') as [Hn1 Hp1], (Hkeep w') as [_ Hp2].
        by rewrite Hd, Hn, Hn1, Hp1, Hp2.
Qed.

(** The pass always returns, and an object holds the annotation of the
    last position it is met at: when an object is met twice, what it
    received at its first position is overwritten. *)
Lemma _updateWaypointsWithPreviousWaypointData_last
    (l : list nat) (σ : nat → StandardWaypointModel) :
  ∃ σ',
    _updateWaypointsWithPreviousWaypointData l σ = Normal σ'
    ∧ ∀ i w p,
        l !! i = Some w →
        w ∉ drop (S i) l →
        (if (i =? 0)%nat then Some w else l !! (i - 1)%nat) = Some p →
        distanceFromPreviousWaypoint (σ' w)
        = Some (nm (distance2d (position (σ p)) (position (σ w))))
        ∧ previousStandardWaypointName (σ' w) = Some (name (σ p)).
Proof.
  destruct (forEach_from_annotates l l [] σ eq_refl)
    as (σ' & Hloop & _ & _ & Hann).
  exists σ'. split; [exact Hloop|exact Hann].
Qed.

(** In a list without repetition, a reference is not met again after its
    index. *)
Lemma met_once (l : list nat) i w :
  NoDup l → l !! i = Some w → w ∉ drop (S i) l.
Proof.
  intros Hnd Hi Hin. apply list_elem_of_lookup in Hin as [j Hj].
  rewrite lookup_drop in Hj.
  pose proof (NoDup_lookup l i (S i + j) w Hnd Hi Hj). lia.
Qed.

(** C6: the pre-spawn pass over a sequence of distinct waypoint
    objects returns; afterwards the waypoint at position 0 holds the
    distance 0 and its own name, and the waypoint at a position
    [i + 1] holds the planar distance to the waypoint at position [i],
    converted to nautical miles, and the name of that waypoint; names
    and positions are left as they were. *)
Theorem previous_waypoint_annotation (l : list nat) (σ : nat → StandardWaypointModel) :
  (∀ p, distance2d p p = zero) →
  nm zero = zero →
  NoDup l →
  ∃ σ',
    _updateWaypointsWithPreviousWaypointData l σ = Normal σ'
    ∧ (∀ w, l !! 0%nat = Some w →
         distanceFromPreviousWaypoint (σ' w) = Some zero
         ∧ previousStandardWaypointName (σ' w) = Some (name (σ' w)))
    ∧ (∀ i w p, l !! S i = Some w → l !! i = Some p →
         distanceFromPreviousWaypoint (σ' w)
         = Some (nm (distance2d (position (σ' p)) (position (σ' w))))
         ∧ previousStandardWaypointName (σ' w) = Some (name (σ' p)))
    ∧ (∀ r, name (σ' r) = name (σ r) ∧ position (σ' r) = position (σ r)).
Proof.
  intros Hself Hzero Hnd. unfold _updateWaypointsWithPreviousWaypointData.
  destruct (forEach_from_annotates l l [] σ eq_refl)
    as (σ' & Hloop & Hkeep & _ & Hann).
  cbn [length] in Hloop, Hann. exists σ'. split; [exact Hloop|].
  split; [|split; [|exact Hkeep]].
  - intros w Hw.
    destruct (Hann 0%nat w w Hw (met_once l 0 w Hnd Hw) eq_refl) as [-> ->].
    rewrite Hself, Hzero. by destruct (Hkeep w) as [-> _].
  - intros i w p Hw Hp.
    destruct (Hann (S i) w p Hw (met_once l (S i) w Hnd Hw)) as [-> ->].
    { cbn. by rewrite Nat.sub_0_r. }
    by destruct (Hkeep w) as [_ ->], (Hkeep p) as [-> ->].
Qed.

End Facts.

(** *** On the sample definitions *)



End RouteProps.

(** * The pre-spawn pass on the real plane *)

Module PlaneProps.
Import Stdlib.Reals.Reals.
Import Route.

Lemma plane_distance2d_self (p : R * R) :
  Plane.distance2d p p = 0%R.
Proof.
  unfold Plane.distance2d.
  replace ((p.1 - p.1) * (p.1 - p.1) + (p.2 - p.2) * (p.2 - p.2))%R with 0%R
    by lra.
  apply sqrt_0.
Qed.

Lemma plane_nm_zero : Plane.nm 0%R = 0%R.
Proof. unfold Plane.nm. lra. Qed.

Lemma previous_waypoint_annotation_witness :
  ∃ σ',
    @_updateWaypointsWithPreviousWaypointData Plane.geometry [0; 1]%nat Plane.waypoints
    = Normal σ'
    ∧ distanceFromPreviousWaypoint (σ' 0%nat) = Some 0%R
    ∧ previousStandardWaypointName (σ' 0%nat) = Some "A"
    ∧ distanceFromPreviousWaypoint (σ' 1%nat)
      = Some (Plane.nm (Plane.distance2d (0, 0)%R (3, 4)%R))
    ∧ previousStandardWaypointName (σ' 1%nat) = Some "A".
Proof.
  destruct (RouteProps.previous_waypoint_annotation (H:=Plane.geometry) [0; 1]%nat Plane.waypoints
              plane_distance2d_self plane_nm_zero)
    as (σ' & Hrun & Hfirst & Hnext & Hkeep).
  { apply NoDup_cons_2; [|apply NoDup_singleton].
    intros Hin. apply list_elem_of_singleton in Hin. discriminate Hin. }
  exists σ'. split; [exact Hrun|].
  destruct (Hfirst 0%nat eq_refl) as [Hd0 Hn0].
  destruct (Hnext 0%nat 1%nat 0%nat eq_refl eq_refl) as [Hd1 Hn1].
  destruct (Hkeep 0%nat) as [Hname0 Hpos0], (Hkeep 1%nat) as [_ Hpos1].
  rewrite Hname0 in Hn0, Hn1. rewrite Hpos0, Hpos1 in Hd1.
  split; [exact Hd0|]. split; [exact Hn0|]. split; [exact Hd1|exact Hn1].
Defined.

End PlaneProps.

(** * Further properties of the command interpreter *)

Module ParserMore.
Import Parser ParserProps.

(** *** Lower case and tokens *)


Lemma lower_lower c : lower (lower c) = lower c.
Proof. destruct c as [[] [] [] [] [] [] [] []]; reflexivity. Qed.

Lemma toLowerCase_idempotent s : toLowerCase (toLowerCase s) = toLowerCase s.
Proof.
  induction s as [|c s IH]; [done|]. cbn. by rewrite lower_lower, IH.
Qed.


Section Facts.
Context `{Env}.



Lemma groups_unparsed tokens :
  Forall (λ c, parsedArgs c = None) (groups tokens).
Proof.
  induction tokens as [|t ts IH]; [constructor|]. cbn [groups].
  destruct (resolves t); [by constructor|done].
Qed.

Lemma first_error_split (l : list CommandModel) e es :
  omap validateArgs l = e :: es →
  ∃ pre c post,
    l = pre ++ c :: post
    ∧ Forall (λ c', validateArgs c' = None) pre
    ∧ validateArgs c = Some e.
Proof.
  induction l as [|c l IH]; [done|]. cbn.
  destruct (validateArgs c) as [e'|] eqn:Hc.
  - intros [= -> _]. by exists [], c, l.
  - intros Hl. destruct (IH Hl) as (pre & c' & post & -> & Hpre & Hc').
    exists (c :: pre), c', post. split; [done|]. split; [by constructor|done].
Qed.

(** What the constructor built before it validated: nothing when it threw
    a [TypeError], else a list of records without parsed arguments. *)
Lemma constructor_built raw :
  (∃ this, constructor raw = (Throw TypeError, this) ∧ commandList this = [])
  ∨ (∃ this0, constructor raw = _validateAndParseCommandArguments this0
              ∧ Forall (λ c, parsedArgs c = None) (commandList this0)).
Proof.
  destruct (split_cons " " (toLowerCase raw)) as (t0 & rest & Hs).
  destruct (_isSystemCommand t0) eqn:Ht.
  - right. eexists. split; [by apply constructor_system|].
    by repeat constructor.
  - rewrite (constructor_transmit _ _ _ Hs Ht), _buildCommandList_groups.
    destruct (first_token rest) as [t|]; [destruct (resolves t)|].
    + right. eexists. split; [done|]. apply groups_unparsed.
    + left. by eexists.
    + right. eexists. split; [done|]. apply groups_unparsed.
Qed.

(** *** The errors of the constructor *)


(** X2: when the constructor throws a validation error, it is the error of
    the first record, in the order of the line, that fails validation:
    the records before it passed and were parsed, the failing record was
    left unparsed. *)
Theorem validation_error_of_first_failing_record raw e :
  new_CommandParser raw = Throw (ValidationError e) →
  ∃ pre c post,
    commandList (snd (constructor raw)) = pre ++ c :: post
    ∧ Forall (λ c', validateArgs c' = None ∧ is_Some (parsedArgs c')) pre
    ∧ validateArgs c = Some e
    ∧ parsedArgs c = None.
Proof.
  unfold new_CommandParser.
  destruct (constructor_built raw) as [(this & -> & _)|(this0 & -> & Hun)]; [done|].
  rewrite _validateAndParseCommandArguments_run. cbn [snd commandList].
  destruct (omap validateArgs (commandList this0)) as [|e' es] eqn:Hv; [done|].
  intros [= ->].
  destruct (first_error_split _ _ _ Hv) as (pre & c & post & Hl & Hpre & Hc).
  rewrite Hl in Hun |- *. rewrite fmap_app, fmap_cons.
  exists ((λ c, snd (validate_or_parse c)) <$> pre), c,
         ((λ c, snd (validate_or_parse c)) <$> post).
  assert (Hcc : snd (validate_or_parse c) = c)
    by (unfold validate_or_parse; by rewrite Hc).
  rewrite Hcc. split; [done|]. split; [|split; [done|]].
  - clear -Hpre. induction Hpre as [|c' pre Hc' _ IH]; [constructor|].
    rewrite fmap_cons. constructor; [|exact IH].
    rewrite validateArgs_after. split; [done|].
    unfold validate_or_parse. rewrite Hc'. by eexists.
  - clear -Hun. induction pre as [|c' pre IH]; cbn in Hun.
    + by inversion Hun.
    + apply IH. by inversion Hun.
Qed.

(** *** What a returned interpreter holds *)








End Facts.

(** *** On the sample command table *)

Lemma validation_error_of_first_failing_record_witness :
  ∃ pre c post,
    commandList (snd (@constructor Sample.table "AA777 fh 0270 d sp")) = pre ++ c :: post
    ∧ Forall (λ c', is_Some (parsedArgs c')) pre
    ∧ @validateArgs Sample.table c
      = Some "Invalid argument. Expected exactly one argument: descend"
    ∧ parsedArgs c = None.
Proof.
  destruct (validation_error_of_first_failing_record (H:=Sample.table)
              "AA777 fh 0270 d sp"
              "Invalid argument. Expected exactly one argument: descend"
              ltac:(vm_compute; reflexivity))
    as (pre & c & post & Hl & Hpre & Hc & Hp).
  exists pre, c, post. split; [exact Hl|]. split; [|split; [exact Hc|exact Hp]].
  clear -Hpre. induction Hpre as [|c' pre [_ Hc'] _ IH]; by constructor.
Defined.






End ParserMore.

(** * Further properties of the procedure model *)

Module RouteMore.
Import Route RouteProps.

Section Facts.
Context `{Geometry}.

(** *** The collections of a constructed model *)

Lemma new_collections r :
  let this := new_StandardRouteModel r in
  (_entryCollection this, _exitCollection this)
  = match def_entryPoints r, def_exitPoints r with
    | Some e, _ =>
        (_buildSegmentCollection (Some e), _buildSegmentCollection (def_rwy r))
    | None, Some x =>
        (_buildSegmentCollection (def_rwy r), _buildSegmentCollection (Some x))
    | None, None => (None, None)
    end.
Proof.
  unfold new_StandardRouteModel, _init, _buildEntryAndExitCollections. cbn.
  destruct (def_entryPoints r) as [e|].
  - by rewrite bool_decide_eq_true_2 by by eexists.
  - rewrite (bool_decide_eq_false_2 (is_Some None)) by apply is_Some_None.
    destruct (def_exitPoints r) as [x|].
    + by rewrite bool_decide_eq_true_2 by by eexists.
    + by rewrite (bool_decide_eq_false_2 (is_Some None)) by apply is_Some_None.
Qed.

Lemma _buildSegmentCollection_Some d c :
  _buildSegmentCollection d = Some c → is_Some d.
Proof. destruct d; [by eexists|done]. Qed.

(** A collection built from [rwy] is there only when [rwy] is. *)
Lemma new_collections_rwy r :
  let this := new_StandardRouteModel r in
  (def_entryPoints r = None → is_Some (_entryCollection this) → is_Some (def_rwy r))
  ∧ (is_Some (def_entryPoints r) → is_Some (_exitCollection this) → is_Some (def_rwy r)).
Proof.
  pose proof (new_collections r) as Hc. cbn zeta in *. split.
  - intros He. rewrite He in Hc. destruct (def_exitPoints r).
    + injection Hc as -> _. intros [c Hc]. by eapply _buildSegmentCollection_Some.
    + injection Hc as -> _. by intros [? ?].
  - intros [e He]. rewrite He in Hc. injection Hc as _ ->.
    intros [c Hc]. by eapply _buildSegmentCollection_Some.
Qed.

(** *** Waypoint resolution *)

(** X8: on a constructed model, waypoint resolution throws exactly when a
    collection that is there has no segment of the requested name;
    otherwise it returns the waypoints of the entry segment, of the body
    and of the exit segment, in that order. *)
Theorem waypoint_resolution_throws_iff r entry exit :
  let this := new_StandardRouteModel r in
  (_findStandardWaypointModelsForRoute this entry exit = Throw TypeError
   ↔ (∃ c, _entryCollection this = Some c ∧ findSegmentByName c entry = None)
     ∨ (∃ c, _exitCollection this = Some c ∧ findSegmentByName c exit = None))
  ∧ (∀ l, _findStandardWaypointModelsForRoute this entry exit = Normal l →
          ∃ a b,
            l = a ++ items (_buildSegmentModel (def_body r)) ++ b
            ∧ a = match _entryCollection this with
                  | Some c => default [] (items <$> findSegmentByName c entry)
                  | None => []
                  end
            ∧ b = match _exitCollection this with
                  | Some c => default [] (items <$> findSegmentByName c exit)
                  | None => []
                  end).
Proof.
  cbn zeta. destruct (new_fields r) as (_ & _ & _ & _ & Hb).
  unfold _findStandardWaypointModelsForRoute. rewrite Hb.
  destruct (_entryCollection (new_StandardRouteModel r)) as [ce|];
    destruct (_exitCollection (new_StandardRouteModel r)) as [cx|];
    try destruct (findSegmentByName ce entry) as [se|] eqn:Hse;
    try destruct (findSegmentByName cx exit) as [sx|] eqn:Hsx;
    cbn [bindc segment_items fmap option_fmap option_map default];
    rewrite ?_generateFixList_app.
  all: split; [split|].
  all: try (intros l [= <-]; eexists _, _;
            split; [|split; reflexivity]; reflexivity).
  all: try (intros l [=]).
  all: try done.
  all: try (intros [(c & [= <-] & Hn)|(c & [= <-] & Hn)]; congruence).
  all: try (intros [(c & [=] & _)|(c & [= <-] & Hn)]; congruence).
  all: try (intros [(c & [= <-] & Hn)|(c & [=] & _)]; congruence).
  all: try (intros [(c & [=] & _)|(c & [=] & _)]).
  all: try (intros _; left; by eexists).
  all: try (intros _; right; by eexists).
Qed.

(** A side of fix-list resolution, when its raw data is there and the name
    is not empty. *)
Lemma side_lookup this original collection segmentName :
  is_Some (get_original this original) →
  segmentName ≠ "" →
  _findFixListInByCollectionAndSegmentName this original collection segmentName
  = match get_collection this collection with
    | Some c =>
        default [] (findWaypointsForSegment <$> findSegmentByName c segmentName)
    | None => []
    end.
Proof.
  intros [d Hd] Hn.
  unfold _findFixListInByCollectionAndSegmentName, findWaypointsForSegmentName.
  rewrite Hd, (bool_decide_eq_false_2 _ Hn).
  destruct (get_collection this collection) as [c|]; [|done].
  by destruct (findSegmentByName c segmentName).
Qed.

Lemma side_without_collection this original collection segmentName :
  get_collection this collection = None →
  _findFixListInByCollectionAndSegmentName this original collection segmentName = [].
Proof.
  intros Hc. unfold _findFixListInByCollectionAndSegmentName. rewrite Hc.
  by destruct (get_original this original).
Qed.

(** X9: the two resolutions agree: when waypoint resolution returns, for names
    that are not empty, the fix list of the same names (by the STAR lookup
    for a definition that holds [entryPoints], by the SID lookup
    otherwise) is the list of the names and restrictions of the waypoints,
    in the same order. *)
Theorem resolutions_agree r entry exit l :
  let this := new_StandardRouteModel r in
  entry ≠ "" →
  exit ≠ "" →
  _findStandardWaypointModelsForRoute this entry exit = Normal l →
  (if bool_decide (is_Some (def_entryPoints r))
   then findFixesAndRestrictionsForEntryAndRunway this entry exit
   else findFixesAndRestrictionsForRunwayAndExit this entry exit)
  = Normal ((λ w, (name w, restrictions w)) <$> l).
Proof.
  cbn zeta. intros Hentry Hexit Hl.
  destruct (new_fields r) as (Hrwy & _ & Hxp & Hep & Hb).
  destruct (new_collections_rwy r) as [Hsid Hstar]. cbn zeta in *.
  unfold findFixesAndRestrictionsForEntryAndRunway,
    findFixesAndRestrictionsForRunwayAndExit,
    _findFixListForStarByEntryAndRunway, _findFixListForSidByRunwayAndExit.
  rewrite _findBodyFixList_new. cbn [bindc]. rewrite !_generateFixList_app.
  unfold _findStandardWaypointModelsForRoute in Hl. rewrite Hb in Hl.
  cbn [segment_items] in Hl.
  set (this := new_StandardRouteModel r) in *.
  assert (Hside : ∀ original collection c n items0,
            get_collection this collection = c →
            (is_Some c → is_Some (get_original this original)) →
            n ≠ "" →
            match c with
            | Some c => segment_items (findSegmentByName c n)
            | None => Normal []
            end = Normal items0 →
            _findFixListInByCollectionAndSegmentName this original collection n
            = (λ w, (name w, restrictions w)) <$> items0).
  { intros original collection c n items0 Hc Ho Hn Hi. destruct c as [c|].
    - rewrite side_lookup, Hc by (done || by apply Ho; eexists).
      destruct (findSegmentByName c n) as [s|]; [|done].
      by injection Hi as <-.
    - rewrite side_without_collection by done. by injection Hi as <-. }
  destruct (match _entryCollection this with
            | Some c => segment_items (findSegmentByName c entry)
            | None => Normal []
            end) as [a|] eqn:Ha; [|done].
  destruct (match _exitCollection this with
            | Some c => segment_items (findSegmentByName c exit)
            | None => Normal []
            end) as [b|] eqn:Hx; [|done].
  cbn [bindc] in Hl. rewrite _generateFixList_app in Hl. injection Hl as <-.
  rewrite !fmap_app. unfold findWaypointsForSegment.
  destruct (def_entryPoints r) as [e|] eqn:He.
  - rewrite bool_decide_eq_true_2 by by eexists. f_equal. f_equal; [|f_equal].
    + eapply (Hside "entryPoints" "_entryCollection"); [done| |done|exact Ha].
      intros _. unfold get_original. cbn. rewrite Hep. by eexists.
    + eapply (Hside "rwy" "_exitCollection"); [done| |done|exact Hx].
      intros Hc. unfold get_original. cbn. rewrite Hrwy. apply Hstar; [by eexists|done].
  - rewrite (bool_decide_eq_false_2 (is_Some None)) by apply is_Some_None.
    f_equal. f_equal; [|f_equal].
    + eapply (Hside "rwy" "_entryCollection"); [done| |done|exact Ha].
      intros Hc. unfold get_original. cbn. rewrite Hrwy. by apply Hsid.
    + eapply (Hside "exitPoints" "_exitCollection"); [done| |done|exact Hx].
      intros _. unfold get_original. cbn. rewrite Hxp. by eexists.
Qed.

(** X10: the raw data named in the two public fix-list lookups only serves as
    a guard: on a constructed model whose definition has [rwy], the lookup
    by runway and exit and the lookup by entry and runway return the same
    list for the same two names. *)
Theorem fix_list_lookups_coincide r a b :
  is_Some (def_rwy r) →
  findFixesAndRestrictionsForRunwayAndExit (new_StandardRouteModel r) a b
  = findFixesAndRestrictionsForEntryAndRunway (new_StandardRouteModel r) a b.
Proof.
  intros [d Hd]. destruct (new_fields r) as (Hrwy & _ & Hxp & Hep & _).
  cbn zeta in *.
  unfold findFixesAndRestrictionsForEntryAndRunway,
    findFixesAndRestrictionsForRunwayAndExit,
    _findFixListForStarByEntryAndRunway, _findFixListForSidByRunwayAndExit,
    _findFixListInByCollectionAndSegmentName, get_original.
  cbn. by rewrite Hrwy, Hd, Hxp, Hep.
Qed.

(** *** After [reset] *)

(** X11: [reset] is idempotent; on a model that was reset both fix-list lookups
    return the empty list for every pair of names, [hasFixName] is [null]
    for every name, and waypoint resolution throws a [TypeError]: the body
    segment model it reads is null. *)
Theorem after_reset this a b :
  reset (reset this) = reset this
  ∧ findFixesAndRestrictionsForRunwayAndExit (reset this) a b = Normal []
  ∧ findFixesAndRestrictionsForEntryAndRunway (reset this) a b = Normal []
  ∧ hasFixName (reset this) a = None
  ∧ _findStandardWaypointModelsForRoute (reset this) a b = Throw TypeError.
Proof.
  split; [reflexivity|]. split; [reflexivity|]. split; [|split; reflexivity].
  unfold findFixesAndRestrictionsForEntryAndRunway, _findFixListForStarByEntryAndRunway.
  by rewrite !side_without_collection.
Qed.

(** *** [hasFixName] *)

(** X12: [hasFixName] never throws and looks at the names of the segments of
    the two collections only.  It is truthy exactly when a collection that
    is there has a segment of that name, and it is [null], not [false],
    exactly when the exit collection is null and the entry collection has
    no such segment. *)
Theorem hasFixName_outcome this fixName :
  (default false (hasFixName this fixName) = true
   ↔ (∃ c, _entryCollection this = Some c ∧ is_Some (findSegmentByName c fixName))
     ∨ (∃ c, _exitCollection this = Some c ∧ is_Some (findSegmentByName c fixName)))
  ∧ (hasFixName this fixName = None
     ↔ _exitCollection this = None
       ∧ ∀ c, _entryCollection this = Some c → findSegmentByName c fixName = None).
Proof.
  unfold hasFixName, has_segment.
  destruct (_entryCollection this) as [ce|], (_exitCollection this) as [cx|];
    cbn [fmap option_fmap option_map];
    try destruct (findSegmentByName ce fixName) as [se|] eqn:Hse;
    try destruct (findSegmentByName cx fixName) as [sx|] eqn:Hsx;
    rewrite ?(bool_decide_eq_true_2 (is_Some (Some _))) by (by eexists);
    rewrite ?(bool_decide_eq_false_2 (is_Some None)) by apply is_Some_None;
    cbn [fmap option_fmap option_map default].
  all: split; split.
  all: try done.
  all: try (intros _; (left + right); eexists; split; [done|by eexists]).
  all: try (intros [(c & [= <-] & Hs)|(c & [= <-] & Hs)];
            rewrite ?Hse, ?Hsx in Hs; by destruct Hs).
  all: try (by intros [(c & [=] & _)|(c & [=] & _)]).
  all: try (intros [_ Hn]; specialize (Hn _ eq_refl); congruence).
  all: try (by intros [[=] _]).
  all: try (intros _; split; [done|]; by intros c [= <-]).
  all: try (intros _; split; [done|]; by intros c [=]).
Qed.

(** *** The pre-spawn pass, object by object *)

Lemma annotated_annotated (w : StandardWaypointModel) d n d' n' :
  annotated (annotated w d n) d' n' = annotated w d' n'.
Proof. reflexivity. Qed.

(** What one write leaves of an object: its name and its position, and
    what a later write makes of it. *)
Lemma insert_annotated_keeps (σ : nat → StandardWaypointModel) w d n r :
  let σ1 := <[w := annotated (σ w) d n]> σ in
  name (σ1 r) = name (σ r)
  ∧ position (σ1 r) = position (σ r)
  ∧ ∀ d' n', annotated (σ1 r) d' n' = annotated (σ r) d' n'.
Proof.
  cbn zeta. destruct (decide (w = r)) as [->|Hne].
  - by rewrite fn_lookup_insert.
  - by rewrite fn_lookup_insert_ne.
Qed.

(** The loop from index [length pre] on, as whole objects: an object
    outside the rest of the list is left as it was, and an object of the
    list ends as the write at the last index it is met at made it. *)
Lemma forEach_from_writes l : ∀ rest pre σ,
  l = pre ++ rest →
  ∃ σ',
    forEach_from rest (length pre) (update_waypoint l) σ = Normal σ'
    ∧ (∀ r, r ∉ rest → σ' r = σ r)
    ∧ (∀ j w p,
         rest !! j = Some w →
         w ∉ drop (S j) rest →
         (if (length pre + j =? 0)%nat then Some w
          else l !! (length pre + j - 1)%nat) = Some p →
         σ' w = annotated (σ w)
                  (nm (distance2d (position (σ p)) (position (σ w))))
                  (name (σ p))).
Proof.
  induction rest as [|w rest IH]; intros pre σ Hl.
  - exists σ. by repeat split.
  - destruct (update_waypoint_run l pre w rest σ Hl) as (p & Hp & Hrun).
    cbn [forEach_from]. rewrite Hrun. cbn [bindc].
    pose proof (insert_annotated_keeps σ w
                  (nm (distance2d (position (σ p)) (position (σ w))))
                  (name (σ p))) as Hkeep.
    cbn zeta in Hkeep. set (σ1 := <[w := _]> σ) in *.
    destruct (IH (pre ++ [w]) σ1) as (σ' & Hloop & Hframe & Hwrite).
    { by rewrite <- app_assoc. }
    rewrite length_app in Hloop, Hwrite. cbn [length] in Hloop, Hwrite.
    rewrite Nat.add_1_r in Hloop. exists σ'. split; [exact Hloop|]. split.
    + intros r Hr. apply not_elem_of_cons in Hr as [Hr1 Hr2].
      rewrite (Hframe r Hr2). subst σ1. by rewrite fn_lookup_insert_ne.
    + intros j w' p' Hj Hlast Hp'. destruct j as [|j].
      * injection Hj as <-. rewrite Nat.add_0_r, Hp in Hp'. injection Hp' as <-.
        cbn [drop] in Hlast. rewrite (Hframe w Hlast). subst σ1.
        by rewrite fn_lookup_insert.
      * cbn in Hj. cbn [drop] in Hlast.
        replace (length pre + S j)%nat with (length pre + 1 + j)%nat in Hp' by lia.
        rewrite (Hwrite j w' p' Hj Hlast Hp').
        destruct (Hkeep p') as (-> & -> & _), (Hkeep w') as (_ & -> & ->). done.
Qed.

(** An element of a list has a last index. *)
Lemma last_occurrence (l : list nat) r :
  r ∈ l → ∃ j, l !! j = Some r ∧ r ∉ drop (S j) l.
Proof.
  induction l as [|x l IH]; intros Hr; [by apply not_elem_of_nil in Hr|].
  destruct (decide (r ∈ l)) as [Hin|Hnin].
  - destruct (IH Hin) as (j & Hj & Hlast). by exists (S j).
  - apply elem_of_cons in Hr as [->|Hr]; [|done]. by exists 0%nat.
Qed.

(** The reference in front of an index of the list. *)
Lemma previous_reference (l : list nat) j w :
  l !! j = Some w →
  ∃ p, (if (j =? 0)%nat then Some w else l !! (j - 1)%nat) = Some p.
Proof.
  intros Hj. destruct j as [|j]; [by exists w|]. cbn [Nat.eqb].
  apply lookup_lt_is_Some. apply lookup_lt_Some in Hj. lia.
Qed.

(** X13: the pass changes nothing but the two annotations, and nothing outside
    its list: it always returns, it leaves an object that is not in the
    list as it was, and an object of the list keeps its name, restriction
    and position and receives both annotations together. *)
Theorem pass_sets_annotations_only (l : list nat) (σ : nat → StandardWaypointModel) :
  ∃ σ',
    _updateWaypointsWithPreviousWaypointData l σ = Normal σ'
    ∧ (∀ r, r ∉ l → σ' r = σ r)
    ∧ (∀ r, r ∈ l → ∃ d n, σ' r = annotated (σ r) d n).
Proof.
  destruct (forEach_from_writes l l [] σ eq_refl) as (σ' & Hrun & Hframe & Hwrite).
  exists σ'. split; [exact Hrun|]. split; [exact Hframe|].
  intros r Hr. destruct (last_occurrence l r Hr) as (j & Hj & Hlast).
  destruct (previous_reference l j r Hj) as (p & Hp).
  eexists _, _. exact (Hwrite j r p Hj Hlast Hp).
Qed.

(** X14: the pass is idempotent: run again on the objects as it left them, it
    leaves every object as it is. *)
Theorem pass_idempotent (l : list nat) (σ : nat → StandardWaypointModel) :
  ∃ σ',
    _updateWaypointsWithPreviousWaypointData l σ = Normal σ'
    ∧ ∃ σ'',
        _updateWaypointsWithPreviousWaypointData l σ' = Normal σ''
        ∧ ∀ r, σ'' r = σ' r.
Proof.
  destruct (forEach_from_writes l l [] σ eq_refl) as (σ' & Hrun & Hframe & Hwrite).
  destruct (forEach_from_writes l l [] σ' eq_refl) as (σ'' & Hrun' & Hframe' & Hwrite').
  exists σ'. split; [exact Hrun|]. exists σ''. split; [exact Hrun'|].
  assert (Hshape : ∀ x, name (σ' x) = name (σ x)
                        ∧ position (σ' x) = position (σ x)
                        ∧ ∀ d n, annotated (σ' x) d n = annotated (σ x) d n).
  { intros x. destruct (decide (x ∈ l)) as [Hx|Hx].
    - destruct (last_occurrence l x Hx) as (j & Hj & Hlast).
      destruct (previous_reference l j x Hj) as (p & Hp).
      by rewrite (Hwrite j x p Hj Hlast Hp).
    - by rewrite (Hframe x Hx). }
  intros r. destruct (decide (r ∈ l)) as [Hr|Hr]; [|by apply Hframe'].
  destruct (last_occurrence l r Hr) as (j & Hj & Hlast).
  destruct (previous_reference l j r Hj) as (p & Hp).
  rewrite (Hwrite' j r p Hj Hlast Hp).
  destruct (Hshape p) as (-> & -> & _), (Hshape r) as (_ & -> & ->).
  by rewrite (Hwrite j r p Hj Hlast Hp).
Qed.

(** *** Resolution before a spawn *)

(** X15: whenever waypoint resolution returns, so does
    [findStandardWaypointModelsForEntryAndExit].  Without the pre-spawn
    flag it returns the resolved list; with it, it returns a list of the
    same length in which the first waypoint holds the distance to itself
    and its own name, and every further waypoint holds the distance to the
    waypoint in front of it and the name of that waypoint. *)
Theorem pre_spawn_resolution this entry exit l :
  _findStandardWaypointModelsForRoute this entry exit = Normal l →
  findStandardWaypointModelsForEntryAndExit this entry exit false = Normal l
  ∧ ∃ l',
      findStandardWaypointModelsForEntryAndExit this entry exit true = Normal l'
      ∧ length l' = length l
      ∧ (∀ w, l !! 0%nat = Some w →
           l' !! 0%nat
           = Some (annotated w (nm (distance2d (position w) (position w))) (name w)))
      ∧ (∀ i p w, l !! i = Some p → l !! S i = Some w →
           l' !! S i
           = Some (annotated w (nm (distance2d (position p) (position w))) (name p))).
Proof.
  intros Hl. unfold findStandardWaypointModelsForEntryAndExit. rewrite Hl.
  cbn [bindc]. split; [done|].
  destruct l as [|w0 l0]; [by exists []|].
  set (l := w0 :: l0) in *. set (σ := λ r : nat, default w0 (l !! r)).
  assert (Hσ : ∀ i w, l !! i = Some w → σ i = w).
  { intros i w Hi. subst σ. cbn beta. by rewrite Hi. }
  destruct (forEach_from_writes (seq 0 (length l)) (seq 0 (length l)) [] σ eq_refl)
    as (σ' & Hrun & _ & Hwrite).
  cbn [length Nat.add] in Hrun, Hwrite.
  unfold _updateWaypointsWithPreviousWaypointData.
  change (length (w0 :: l0)) with (length l). rewrite Hrun. cbn [bindc].
  exists (σ' <$> seq 0 (length l)).
  split; [done|]. split; [by rewrite length_fmap, length_seq|].
  assert (Hlast : ∀ i, i ∉ drop (S i) (seq 0 (length l))).
  { intros i Hin. apply list_elem_of_lookup in Hin as [k Hk].
    rewrite lookup_drop in Hk. apply lookup_seq in Hk. lia. }
  assert (Hseq : ∀ i w, l !! i = Some w → seq 0 (length l) !! i = Some i).
  { intros i w Hi. apply lookup_seq_lt. by eapply lookup_lt_Some. }
  split.
  - intros w Hw. rewrite list_lookup_fmap, (Hseq _ _ Hw). cbn. f_equal.
    rewrite (Hwrite 0%nat 0%nat 0%nat (Hseq _ _ Hw) (Hlast 0%nat) eq_refl).
    by rewrite (Hσ _ _ Hw).
  - intros i p w Hp Hw. rewrite list_lookup_fmap, (Hseq _ _ Hw). cbn. f_equal.
    rewrite (Hwrite (S i) (S i) i (Hseq _ _ Hw) (Hlast (S i))).
    + by rewrite (Hσ _ _ Hw), (Hσ _ _ Hp).
    + cbn [Nat.eqb]. rewrite Nat.sub_succ, Nat.sub_0_r. by eapply Hseq.
Qed.

End Facts.

(** *** On the sample definitions *)

Lemma waypoint_resolution_throws_iff_witness :
  @_findStandardWaypointModelsForRoute Sample.point
    (new_StandardRouteModel Sample.sid) "01L" "ZZZ" = Throw TypeError.
Proof.
  apply (proj1 (waypoint_resolution_throws_iff (H:=Sample.point) Sample.sid "01L" "ZZZ")).
  right. by eexists.
Defined.

Lemma resolutions_agree_witness :
  ∃ l,
    @_findStandardWaypointModelsForRoute Sample.point
      (new_StandardRouteModel Sample.sid) "01L" "X" = Normal l
    ∧ @findFixesAndRestrictionsForRunwayAndExit Sample.point
        (new_StandardRouteModel Sample.sid) "01L" "X"
      = Normal ((λ w, (name w, restrictions w)) <$> l).
Proof.
  eexists. split; [reflexivity|].
  apply (resolutions_agree (H:=Sample.point) Sample.sid "01L" "X"); done.
Defined.

Lemma fix_list_lookups_coincide_witness :
  @findFixesAndRestrictionsForRunwayAndExit Sample.point
    (new_StandardRouteModel Sample.star) "E" "19R"
  = @findFixesAndRestrictionsForEntryAndRunway Sample.point
      (new_StandardRouteModel Sample.star) "E" "19R".
Proof.
  apply (fix_list_lookups_coincide (H:=Sample.point) Sample.star). by eexists.
Defined.

Lemma pre_spawn_resolution_witness :
  ∃ l',
    @findStandardWaypointModelsForEntryAndExit Sample.point
      (new_StandardRouteModel Sample.sid) "01L" "X" true = Normal l'
    ∧ length l' = 4%nat.
Proof.
  destruct (pre_spawn_resolution (H:=Sample.point)
              (new_StandardRouteModel Sample.sid) "01L" "X" _ eq_refl)
    as (_ & l' & Hrun & Hlen & _).
  exists l'. split; [exact Hrun|exact Hlen].
Defined.

End RouteMore.
